(** * Scoreboard demo server (src/problem6/demo/server.js)

    A shallow embedding of the in-memory scoreboard server: the three
    stores ([users], [actionTokens], [rateLimits]), the helpers
    [verifyToken], [getLeaderboard] and [checkRateLimit], and the route
    handlers for requesting and completing an action, reading the
    leaderboard and reading one's own score.

    Conventions.
    - Times are integer milliseconds ([Date.now()]); every clock read made
      while one request is handled returns the same instant [now].
    - Scores are JavaScript numbers that stay integral (initial scores are
      [Math.floor] results, every update adds 100); they are modelled in [Z].
    - A JavaScript [Map] keeps insertion order.  [users] is iterated
      ([Array.from(users.values())]), so it is an insertion-ordered list;
      every record is stored under its own [id] (server.js 38-40), hence the
      key of a record is its [id] field.  [actionTokens] and [rateLimits]
      are only read and written by key and are finite maps.
    - What a client holds as its action token is a pair: the signed
      [actionToken], which carries the expiry, and the [actionId], which
      names the stored record that carries the [used] flag.  The handler
      checks the two independently. *)

From stdpp Require Import gmap strings list fin_maps sorting.
From Stdlib Require Import ZArith Lia.
From stdpp Require Import pretty.

Local Open Scope Z_scope.

(** ** JSON web tokens *)

Module Jwt.

(** The two payload shapes the server signs: the login token of
    [generateToken] and the action token of [POST /api/actions/request]. *)
Inductive Claims :=
| AuthClaims (userId username : string)
| ActionClaims (actionId userId actionType : string) (timestamp : Z) (nonce : string).

(** A payload together with the [iat] and [exp] claims (in seconds) that
    [jwt.sign] adds for the [expiresIn] option. *)
Record Payload := { claims : Claims; iat : Z; exp : Z }.

(** What a client can put where a token is expected: a JWT that carries a
    valid signature under [JWT_SECRET], or anything else (absent value,
    garbage, tampered or foreign-key token). *)
Inductive Token :=
| Signed (p : Payload)
| Garbage (raw : string).

Definition userId (p : Payload) : string :=
  match claims p with
  | AuthClaims u _ => u
  | ActionClaims _ u _ _ _ => u
  end.

(** [jwt.sign(payload, JWT_SECRET, { expiresIn })]: [iat] is the current
    time in whole seconds and [exp = iat + expiresIn]. *)
Definition sign (now : Z) (c : Claims) (expiresInSec : Z) : Token :=
  Signed {| claims := c; iat := now / 1000; exp := now / 1000 + expiresInSec |}.

(** [jwt.verify(token, JWT_SECRET)]: the signature must be valid and the
    current time in whole seconds must still be below [exp]; otherwise it
    throws. *)
Definition verify (now : Z) (t : Token) : option Payload :=
  match t with
  | Signed p => if now / 1000 <? exp p then Some p else None
  | Garbage _ => None
  end.

End Jwt.

(** ** Stores *)

Record User := {
  id : string;
  username : string;
  password : string;
  score : Z;
  totalActions : Z
}.

Record StoredToken := {
  token : Jwt.Token;
  tokenUserId : string;
  used : bool;
  createdAt : Z
}.

Record State := {
  users : list User;
  actionTokens : gmap string StoredToken;
  rateLimits : gmap string (list Z)
}.

(** [users.get(userId)] *)
Definition users_get (userId : string) (us : list User) : option User :=
  List.find (fun u => String.eqb (id u) userId) us.

(** In-place update of the record stored under [userId]: the [Map] and the
    position of the record in it stay as they are. *)
Definition users_update (userId : string) (f : User -> User) (us : list User) : list User :=
  List.map (fun u => if String.eqb (id u) userId then f u else u) us.

(** ** Helper functions *)

(** [generateToken(user)], valid for one hour. *)
Definition generateToken (now : Z) (u : User) : Jwt.Token :=
  Jwt.sign now (Jwt.AuthClaims (id u) (username u)) 3600.

(** [verifyToken(token)]: [jwt.verify], with every exception turned into
    [null]. *)
Definition verifyToken (now : Z) (t : Jwt.Token) : option Jwt.Payload :=
  Jwt.verify now t.

(** *** Array operations used by [getLeaderboard] *)

(** [Array.prototype.sort(cmp)].  ECMAScript requires the sort to be stable;
    for a comparator that is a consistent ordering the result is the one
    stable arrangement, computed here by insertion from the right: an element
    passes over exactly the elements that [cmp] places strictly before it. *)
Fixpoint js_insert {A} (cmp : A -> A -> Z) (x : A) (l : list A) : list A :=
  match l with
  | [] => [x]
  | y :: l' => if 0 <? cmp x y then y :: js_insert cmp x l' else x :: y :: l'
  end.

Definition js_sort {A} (cmp : A -> A -> Z) (l : list A) : list A :=
  foldr (js_insert cmp) [] l.

(** [Array.prototype.slice(0, end)] for an integral [end]: a negative [end]
    counts from the back of the array. *)
Definition js_slice0 {A} (end_ : Z) (l : list A) : list A :=
  let len := Z.of_nat (length l) in
  let k := if end_ <? 0 then Z.max (len + end_) 0 else Z.min end_ len in
  take (Z.to_nat k) l.

(** [Array.prototype.findIndex(p)], [-1] when no element satisfies [p]. *)
Fixpoint findIndex_from {A} (p : A -> bool) (i : Z) (l : list A) : Z :=
  match l with
  | [] => -1
  | x :: l' => if p x then i else findIndex_from p (i + 1) l'
  end.

Definition findIndex {A} (p : A -> bool) (l : list A) : Z := findIndex_from p 0 l.

Record Entry := {
  rank : Z;
  e_userId : string;
  e_username : string;
  e_score : Z;
  e_updatedAt : Z
}.

(** The comparator [(a, b) => b.score - a.score]. *)
Definition byScoreDesc (a b : User) : Z := score b - score a.

Definition toEntry (now : Z) (index : nat) (u : User) : Entry :=
  {| rank := Z.of_nat index + 1;
     e_userId := id u;
     e_username := username u;
     e_score := score u;
     e_updatedAt := now |}.

(** [getLeaderboard(limit)] *)
Definition getLeaderboard (now : Z) (limit : Z) (us : list User) : list Entry :=
  imap (toEntry now) (js_slice0 limit (js_sort byScoreDesc us)).

(** [checkRateLimit(userId)]: the answer and the [rateLimits] store after
    the call. *)
Definition recentActions (now : Z) (userLimits : list Z) : list Z :=
  List.filter (fun time => now - time <? 60000) userLimits.

Definition checkRateLimit (now : Z) (userId : string) (rl : gmap string (list Z))
  : bool * gmap string (list Z) :=
  let userLimits := default [] (rl !! userId) in
  let recent := recentActions now userLimits in
  if (10 <=? length recent)%nat then (false, rl)
  else (true, <[userId := recent ++ [now]]> rl).

(** ** Requests, responses and socket events *)

(** The body of [POST /api/actions/complete] after destructuring:
    [proof] defaults to [{}], so an omitted proof and a proof without
    [completionTime] both give [None]; a numeric [completionTime] is taken
    in whole milliseconds. *)
Record CompleteBody := {
  actionToken : Jwt.Token;
  actionId : string;
  completionTime : option Z
}.

Inductive Response :=
| R401_Unauthorized
| R401_InvalidToken
| R400_InvalidActionToken
| R400_TokenUsedOrExpired
| R429_RateLimitExceeded (retryAfter : Z)
| R400_SuspiciousCompletionTime
| R500_TypeError
| R200_ActionToken (tok : Jwt.Token) (actionId : string) (expiresAt : Z)
| R200_ScoreUpdated (scoreIncrement newScore rank : Z)
| R200_Leaderboard (leaderboard : list Entry) (lastUpdated : Z)
| R200_MyScore (userId username : string) (score rank totalActions : Z).

Inductive Emit :=
| LeaderboardUpdate (leaderboard : list Entry) (updatedAt : Z)
| ScoreUpdate (userId : string) (oldScore newScore increment newRank : Z).

Definition Result : Type := Response * State * list Emit.

Definition response (r : Result) : Response := r.1.1.
Definition state (r : Result) : State := r.1.2.
Definition emitted (r : Result) : list Emit := r.2.

(** ** Route handlers *)

(** The [authenticate] middleware.  The [Authorization] header is [None]
    when it is missing or does not start with ["Bearer "]; otherwise it
    carries the text after the prefix.  On success [req.user] is the decoded
    payload and the handlers read [req.user.userId]. *)
Definition authenticate (now : Z) (authHeader : option Jwt.Token) : Response + string :=
  match authHeader with
  | None => inl R401_Unauthorized
  | Some t =>
      match verifyToken now t with
      | None => inl R401_InvalidToken
      | Some decoded => inr (Jwt.userId decoded)
      end
  end.

(** [proof.completionTime || 10000]: [undefined] and [0] are falsy. *)
Definition effectiveCompletionTime (ct : option Z) : Z :=
  match ct with
  | Some c => if c =? 0 then 10000 else c
  | None => 10000
  end.

(** [completionTime < 1000 || completionTime > 300000] *)
Definition suspicious (ct : Z) : bool := (ct <? 1000) || (300000 <? ct).

(** The rank shown to a user: index in [getLeaderboard(100)] plus one. *)
Definition rankOf (now : Z) (userId : string) (us : list User) : Z :=
  findIndex (fun entry => String.eqb (e_userId entry) userId) (getLeaderboard now 100 us) + 1.

Definition scoreIncrement : Z := 100.

Definition addScore (u : User) : User :=
  {| id := id u; username := username u; password := password u;
     score := score u + scoreIncrement; totalActions := totalActions u + 1 |}.

Definition markUsed (s : StoredToken) : StoredToken :=
  {| token := token s; tokenUserId := tokenUserId s; used := true; createdAt := createdAt s |}.

(** [POST /api/actions/request] for the authenticated [userId].  The two
    random values are inputs: [actionId] is [crypto.randomBytes(16)] and
    [nonce] is [crypto.randomBytes(8)], both in hex. *)
Definition requestAction (now : Z) (userId actionType newId nonce : string) (st : State) : Result :=
  let tok := Jwt.sign now (Jwt.ActionClaims newId userId actionType now nonce) 300 in
  let stored := {| token := tok; tokenUserId := userId; used := false; createdAt := now |} in
  (R200_ActionToken tok newId (now + 300000),
   {| users := users st;
      actionTokens := <[newId := stored]> (actionTokens st);
      rateLimits := rateLimits st |},
   []).

(** [POST /api/actions/complete] for the authenticated [userId]
    (server.js 209-279), statement by statement. *)
Definition completeAction (now : Z) (userId : string) (body : CompleteBody) (st : State) : Result :=
  (* Verify action token *)
  match verifyToken now (actionToken body) with
  | None => (R400_InvalidActionToken, st, [])
  | Some decoded =>
    if negb (String.eqb (Jwt.userId decoded) userId) then (R400_InvalidActionToken, st, [])
    else
    (* Check if token already used *)
    match actionTokens st !! actionId body with
    | None => (R400_TokenUsedOrExpired, st, [])
    | Some storedToken =>
      if used storedToken then (R400_TokenUsedOrExpired, st, [])
      else
      (* Check rate limit *)
      let '(ok, rl) := checkRateLimit now userId (rateLimits st) in
      if negb ok then (R429_RateLimitExceeded 60, st, [])
      else
      let st1 := {| users := users st; actionTokens := actionTokens st; rateLimits := rl |} in
      (* Validate completion time *)
      if suspicious (effectiveCompletionTime (completionTime body))
      then (R400_SuspiciousCompletionTime, st1, [])
      else
      (* Mark token as used *)
      let st2 := {| users := users st1;
                    actionTokens := <[actionId body := markUsed storedToken]> (actionTokens st1);
                    rateLimits := rateLimits st1 |} in
      (* Update score *)
      match users_get userId (users st2) with
      | None => (R500_TypeError, st2, [])
      | Some user =>
        let oldScore := score user in
        let us := users_update userId addScore (users st2) in
        let st3 := {| users := us; actionTokens := actionTokens st2; rateLimits := rateLimits st2 |} in
        let newScore := oldScore + scoreIncrement in
        (* Get new rank *)
        let newRank := rankOf now userId us in
        (R200_ScoreUpdated scoreIncrement newScore newRank,
         st3,
         [ LeaderboardUpdate (getLeaderboard now 10 us) now;
           ScoreUpdate userId oldScore newScore scoreIncrement newRank ])
      end
    end
  end.

(** [GET /api/leaderboard]: [parseInt(req.query.limit) || 10].  The query
    parameter is [None] when it is absent or does not parse ([NaN]). *)
Definition leaderboardLimit (q : option Z) : Z :=
  match q with
  | Some n => if n =? 0 then 10 else n
  | None => 10
  end.

Definition getLeaderboardRoute (now : Z) (q : option Z) (st : State) : Result :=
  (R200_Leaderboard (getLeaderboard now (leaderboardLimit q) (users st)) now, st, []).


(** The complete route with its middleware. *)
Definition completeRoute (now : Z) (authHeader : option Jwt.Token) (body : CompleteBody)
    (st : State) : Result :=
  match authenticate now authHeader with
  | inl err => (err, st, [])
  | inr userId => completeAction now userId body st
  end.

(** ** Histories *)

(** The two requests that change the stores. *)
Inductive Event :=
| EvRequest (now : Z) (userId actionType newId nonce : string)
| EvComplete (now : Z) (userId : string) (body : CompleteBody).

Definition step (e : Event) (st : State) : Result :=
  match e with
  | EvRequest now userId actionType newId nonce =>
      requestAction now userId actionType newId nonce st
  | EvComplete now userId body => completeAction now userId body st
  end.

(** The results of handling the requests of a history one after another. *)
Fixpoint trace (evs : list Event) (st : State) : list Result :=
  match evs with
  | [] => []
  | e :: evs' => let r := step e st in r :: trace evs' (state r)
  end.

Fixpoint run (evs : list Event) (st : State) : State :=
  match evs with
  | [] => st
  | e :: evs' => run evs' (state (step e st))
  end.


(** ** Predicates used in the statements *)

Definition isError (r : Response) : Prop :=
  match r with
  | R401_Unauthorized | R401_InvalidToken | R400_InvalidActionToken
  | R400_TokenUsedOrExpired | R429_RateLimitExceeded _
  | R400_SuspiciousCompletionTime | R500_TypeError => True
  | _ => False
  end.

Definition isScoreUpdated (r : Response) : bool :=
  match r with R200_ScoreUpdated _ _ _ => true | _ => false end.

Definition isLeaderboardUpdate (e : Emit) : bool :=
  match e with LeaderboardUpdate _ _ => true | _ => false end.

(** The token presented in [body] is valid for [userId]: the signed token
    verifies, is bound to the caller, and the record stored under the action
    id exists and is unused. *)
Definition tokenValid (now : Z) (userId : string) (body : CompleteBody) (st : State) : Prop :=
  exists decoded storedToken,
    verifyToken now (actionToken body) = Some decoded
    /\ Jwt.userId decoded = userId
    /\ actionTokens st !! actionId body = Some storedToken
    /\ used storedToken = false.

Definition rateOk (now : Z) (userId : string) (st : State) : Prop :=
  (checkRateLimit now userId (rateLimits st)).1 = true.

Definition timingOk (body : CompleteBody) : Prop :=
  suspicious (effectiveCompletionTime (completionTime body)) = false.

Definition checksPassed (now : Z) (userId : string) (body : CompleteBody) (st : State) : Prop :=
  tokenValid now userId body st /\ rateOk now userId st /\ timingOk body.

(** The token stored under [a] is marked used. *)
Definition consumed (a : string) (st : State) : Prop :=
  used <$> (actionTokens st !! a) = Some true.

(** Orderings of the leaderboard. *)
Definition scoreGe (a b : User) : Prop := score b <= score a.
Definition entryGe (a b : Entry) : Prop := e_score b <= e_score a.

Definition hasScore (s : Z) (u : User) : bool := score u =? s.
Definition scoreAbove (s : Z) (u : User) : bool := s <? score u.

(** Number of records that precede, in the ranking, the record at index [k]
    of the store whose score is [s]: the records with a strictly greater
    score, and the records with the same score that were inserted into the
    store before it. *)
Definition ahead (us : list User) (k : nat) (s : Z) : nat :=
  (length (List.filter (scoreAbove s) us)
   + length (List.filter (hasScore s) (take k us)))%nat.

(** *** The specification's timestamped ranking

    The specification attaches a last-updated timestamp to every score
    entry; the server stores none.  [lastUpdated] recovers it from a
    history: the time of the last accepted score update of each user. *)
Fixpoint lastUpdated (evs : list Event) (st : State) (times : gmap string Z) : gmap string Z :=
  match evs with
  | [] => times
  | e :: evs' =>
      let r := step e st in
      let times' :=
        match e with
        | EvComplete now userId _ =>
            if isScoreUpdated (response r) then <[userId := now]> times else times
        | EvRequest _ _ _ _ _ => times
        end in
      lastUpdated evs' (state r) times'
  end.


(** Every user has at most ten recorded timestamps; this holds for the
    empty store and is kept by [checkRateLimit]. *)
Definition rateBounded (rl : gmap string (list Z)) : Prop :=
  forall u l, rl !! u = Some l -> (length l <= 10)%nat.

(** The times at which a leaderboard snapshot was sent to the sockets. *)
Definition broadcastTimes (rs : list Result) : list Z :=
  concat (map (fun r => concat (map (fun e => match e with
                                             | LeaderboardUpdate _ t => [t]
                                             | ScoreUpdate _ _ _ _ _ => []
                                             end) (emitted r))) rs).

(** The six ways through [completeAction], in the order of the source. *)
Inductive Outcome (now : Z) (userId : string) (body : CompleteBody) (st : State)
  : Result -> Prop :=
| OutInvalid :
    (forall decoded, verifyToken now (actionToken body) = Some decoded ->
                     Jwt.userId decoded <> userId) ->
    Outcome now userId body st (R400_InvalidActionToken, st, [])
| OutUsed decoded :
    verifyToken now (actionToken body) = Some decoded -> Jwt.userId decoded = userId ->
    (forall storedToken, actionTokens st !! actionId body = Some storedToken ->
                         used storedToken = true) ->
    Outcome now userId body st (R400_TokenUsedOrExpired, st, [])
| OutRate :
    tokenValid now userId body st -> ~ rateOk now userId st ->
    Outcome now userId body st (R429_RateLimitExceeded 60, st, [])
| OutTiming :
    tokenValid now userId body st -> rateOk now userId st -> ~ timingOk body ->
    Outcome now userId body st
      (R400_SuspiciousCompletionTime,
       {| users := users st; actionTokens := actionTokens st;
          rateLimits := (checkRateLimit now userId (rateLimits st)).2 |}, [])
| OutNoUser storedToken :
    checksPassed now userId body st ->
    actionTokens st !! actionId body = Some storedToken ->
    users_get userId (users st) = None ->
    Outcome now userId body st
      (R500_TypeError,
       {| users := users st;
          actionTokens := <[actionId body := markUsed storedToken]> (actionTokens st);
          rateLimits := (checkRateLimit now userId (rateLimits st)).2 |}, [])
| OutUpdated storedToken user :
    checksPassed now userId body st ->
    actionTokens st !! actionId body = Some storedToken ->
    users_get userId (users st) = Some user ->
    let us := users_update userId addScore (users st) in
    Outcome now userId body st
      (R200_ScoreUpdated scoreIncrement (score user + scoreIncrement) (rankOf now userId us),
       {| users := us;
          actionTokens := <[actionId body := markUsed storedToken]> (actionTokens st);
          rateLimits := (checkRateLimit now userId (rateLimits st)).2 |},
       [ LeaderboardUpdate (getLeaderboard now 10 us) now;
         ScoreUpdate userId (score user) (score user + scoreIncrement) scoreIncrement
                     (rankOf now userId us) ]).

(** ** Sample data *)

Module Demo.

Definition mkUser (i n : string) (s : Z) : User :=
  {| id := i; username := n; password := "demo123"; score := s; totalActions := 0 |}.

Definition demoUsers : list User :=
  [ mkUser "user-1" "Alice" 100; mkUser "user-2" "Bob" 100; mkUser "user-3" "Charlie" 300 ].

Definition st0 : State :=
  {| users := demoUsers; actionTokens := ∅; rateLimits := ∅ |}.

(** The body a client sends back for the token it was issued. *)
Definition bodyFor (issued : Result) (ct : option Z) : CompleteBody :=
  match response issued with
  | R200_ActionToken tok aid _ =>
      {| actionToken := tok; actionId := aid; completionTime := ct |}
  | _ => {| actionToken := Jwt.Garbage ""; actionId := ""; completionTime := ct |}
  end.

(** Alice and Bob each hold a token issued at 1 s. *)
Definition issued1 : Result := requestAction 1000 "user-1" "COMPLETE_LEVEL" "a1" "n1" st0.
Definition issued2 : Result := requestAction 1000 "user-2" "COMPLETE_LEVEL" "a2" "n2" (state issued1).
Definition st1 : State := state issued2.

(** Bob completes first, Alice ten seconds later. *)
Definition tieHistory : list Event :=
  [ EvComplete 10000 "user-2" (bodyFor issued2 (Some 5000));
    EvComplete 20000 "user-1" (bodyFor issued1 (Some 5000)) ].

(** The stores and the recovered timestamps after [tieHistory]. *)
Definition stTie : State := run tieHistory st1.
Definition tieTimes : gmap string Z := lastUpdated tieHistory st1 ∅.

(** Bob and Alice complete within the same second. *)
Definition burst : list Event :=
  [ EvComplete 10000 "user-2" (bodyFor issued2 (Some 5000));
    EvComplete 10001 "user-1" (bodyFor issued1 (Some 5000)) ].

(** Alice's login token and her accepted completion at 6 s. *)
Definition aliceLogin : Jwt.Token := generateToken 0 (mkUser "user-1" "Alice" 100).
Definition aliceBody : CompleteBody := bodyFor issued1 (Some 5000).
Definition aliceDone : Result := completeAction 6000 "user-1" aliceBody st1.


(** Ten accepted actions of Alice within one second. *)
Definition busy : gmap string (list Z) :=
  {[ "user-1" := [1000; 1001; 1002; 1003; 1004; 1005; 1006; 1007; 1008; 1009] ]}.

End Demo.

(** ** Login, the request route and the initial stores *)

(** The responses of [POST /auth/login]. *)
Inductive LoginResponse :=
| L401_InvalidCredentials
| L200_LoggedIn (tok : Jwt.Token) (userId username : string) (score : Z).

(** [POST /auth/login] (server.js 133-155).  A body field is [None] when
    it is absent or not a string: [===] and [!==] then never find it equal
    to a stored string. *)
Definition login (now : Z) (username_ password_ : option string) (st : State) : LoginResponse :=
  match List.find (fun u => bool_decide (Some (username u) = username_)) (users st) with
  | None => L401_InvalidCredentials
  | Some user =>
      if bool_decide (Some (password user) = password_)
      then L200_LoggedIn (generateToken now user) (id user) (username user) (score user)
      else L401_InvalidCredentials
  end.

(** The instant, in milliseconds, from which a token signed at [now] for
    [ttl] seconds no longer verifies. *)
Definition expiryMs (now ttl : Z) : Z := now - now mod 1000 + 1000 * ttl.




(** Same user, with a score that is not lower. *)
Definition grewFrom (u v : User) : Prop :=
  id v = id u /\ username v = username u /\ password v = password u /\ score u <= score v.

(** What the leaderboard shows of a user, and the same fields of an entry. *)
Definition publicFields (u : User) : string * string * Z := (id u, username u, score u).
Definition entryFields (e : Entry) : string * string * Z := (e_userId e, e_username e, e_score e).

(** The answers of [checkRateLimit] for one user at the given times, one
    call after another. *)
Fixpoint checkAll (userId : string) (ts : list Z) (rl : gmap string (list Z)) : list bool :=
  match ts with
  | [] => []
  | now :: ts' =>
      let r := checkRateLimit now userId rl in r.1 :: checkAll userId ts' r.2
  end.

(** The stores with the record under [a] replaced. *)
Definition withRecord (a : string) (s : StoredToken) (st : State) : State :=
  {| users := users st; actionTokens := <[a := s]> (actionTokens st); rateLimits := rateLimits st |}.

(** The request is a completion that names the action id [a]. *)
Definition namesId (a : string) (e : Event) : bool :=
  match e with
  | EvComplete _ _ body => String.eqb (actionId body) a
  | EvRequest _ _ _ _ _ => false
  end.

(** The request stores a token under the action id [a]. *)
Definition mints (a : string) (e : Event) : bool :=
  match e with
  | EvRequest _ _ _ newId _ => String.eqb newId a
  | EvComplete _ _ _ => false
  end.

(** Successful completions that name [a] in a history. *)
Fixpoint completionsOf (a : string) (evs : list Event) (st : State) : nat :=
  match evs with
  | [] => 0
  | e :: evs' =>
      let r := step e st in
      ((if isScoreUpdated (response r) && namesId a e then 1 else 0)
       + completionsOf a evs' (state r))%nat
  end.

(** Tokens stored under [a] in a history. *)
Definition mintsOf (a : string) (evs : list Event) : nat := length (List.filter (mints a) evs).

(** 1 when an unused record is stored under [a], 0 otherwise. *)
Definition available (a : string) (st : State) : nat :=
  match actionTokens st !! a with
  | Some s => if used s then 0 else 1
  | None => 0
  end.

(** The stores when the server starts (server.js 31-46): ten users
    [user-1] to [user-10]; [rnd index] stands for the two [Math.random]
    draws that give the score and the action count of the user at [index]. *)
Definition demoNames : list string :=
  ["Alice"; "Bob"; "Charlie"; "David"; "Eve"; "Frank"; "Grace"; "Henry"; "Iris"; "Jack"].

Definition initialUsers (rnd : nat -> Z * Z) : list User :=
  imap (fun index name =>
          {| id := "user-" +:+ pretty (index + 1)%nat;
             username := name;
             password := "demo123";
             score := (rnd index).1;
             totalActions := (rnd index).2 |}) demoNames.

Definition initialState (rnd : nat -> Z * Z) : State :=
  {| users := initialUsers rnd; actionTokens := ∅; rateLimits := ∅ |}.


(** * Properties *)

(** ** Leaderboard: sorting *)

Section sorting.
Context {A : Type} (cmp : A -> A -> Z).

Lemma js_insert_perm x l : js_insert cmp x l ≡ₚ x :: l.
Proof.
  induction l as [|y l IH]; simpl; [done|].
  destruct (0 <? cmp x y); [|done].
  rewrite IH. apply Permutation_swap.
Qed.

Lemma js_sort_perm l : js_sort cmp l ≡ₚ l.
Proof.
  induction l as [|x l IH]; simpl; [done|].
  rewrite js_insert_perm. by f_equiv.
Qed.

End sorting.

Lemma js_insert_sorted x s :
  StronglySorted scoreGe s -> StronglySorted scoreGe (js_insert byScoreDesc x s).
Proof.
  induction 1 as [|y s Hs IH Hy]; simpl.
  - repeat constructor.
  - unfold byScoreDesc at 1. destruct (Z.ltb_spec 0 (score y - score x)).
    + constructor; [done|].
      rewrite js_insert_perm. constructor; [unfold scoreGe; lia | done].
    + constructor; [by constructor|].
      constructor; [unfold scoreGe; lia|].
      eapply Forall_impl; [exact Hy|]. unfold scoreGe. intros; simpl in *; lia.
Qed.

Lemma js_sort_sorted us : StronglySorted scoreGe (js_sort byScoreDesc us).
Proof.
  induction us as [|x us IH]; simpl; [constructor | by apply js_insert_sorted].
Qed.

Lemma js_insert_filter_score x l s :
  List.filter (hasScore s) (js_insert byScoreDesc x l) = List.filter (hasScore s) (x :: l).
Proof.
  induction l as [|y l IH]; [done|].
  cbn [js_insert]. unfold byScoreDesc at 1.
  destruct (Z.ltb_spec 0 (score y - score x)) as [Hlt|Hge]; [|done].
  cbn [List.filter] in *. rewrite IH. unfold hasScore.
  destruct (Z.eqb_spec (score x) s), (Z.eqb_spec (score y) s); try done; lia.
Qed.

Lemma js_sort_stable us s :
  List.filter (hasScore s) (js_sort byScoreDesc us) = List.filter (hasScore s) us.
Proof.
  induction us as [|x us IH]; [done|].
  cbn [js_sort foldr]. rewrite js_insert_filter_score.
  cbn [List.filter]. fold (js_sort byScoreDesc us). by rewrite IH.
Qed.

Lemma js_insert_count_above x l s :
  length (List.filter (scoreAbove s) (js_insert byScoreDesc x l))
  = length (List.filter (scoreAbove s) (x :: l)).
Proof.
  induction l as [|y l IH]; [done|].
  cbn [js_insert]. destruct (0 <? byScoreDesc x y); [|done].
  cbn [List.filter] in *.
  destruct (scoreAbove s x), (scoreAbove s y); cbn [length] in *; lia.
Qed.

Lemma js_sort_count_above us s :
  length (List.filter (scoreAbove s) (js_sort byScoreDesc us))
  = length (List.filter (scoreAbove s) us).
Proof.
  induction us as [|x us IH]; [done|].
  cbn [js_sort foldr]. rewrite js_insert_count_above.
  fold (js_sort byScoreDesc us). cbn [List.filter].
  destruct (scoreAbove s x); cbn [length]; lia.
Qed.

Lemma filter_above_nil s l :
  Forall (fun u => score u <= s) l -> List.filter (scoreAbove s) l = [].
Proof.
  induction 1 as [|y l Hy _ IH]; [done|].
  cbn [List.filter]. unfold scoreAbove at 1.
  destruct (Z.ltb_spec s (score y)); [lia | done].
Qed.

Lemma js_insert_lookup_self x s :
  StronglySorted scoreGe s ->
  js_insert byScoreDesc x s !! length (List.filter (scoreAbove (score x)) s) = Some x.
Proof.
  induction 1 as [|y s Hs IH Hy]; [done|].
  cbn [js_insert List.filter]. unfold byScoreDesc at 1, scoreAbove at 1.
  destruct (Z.ltb_spec 0 (score y - score x)), (Z.ltb_spec (score x) (score y)); try lia.
  - exact IH.
  - rewrite filter_above_nil; [done|].
    eapply Forall_impl; [exact Hy|]. unfold scoreGe. intros; simpl in *; lia.
Qed.

Lemma js_insert_lookup_other x s i u :
  StronglySorted scoreGe s -> s !! i = Some u ->
  js_insert byScoreDesc x s !! (if score u <=? score x then S i else i) = Some u.
Proof.
  intros Hs. revert i. induction Hs as [|y s Hs IH Hy]; intros i Hi; [done|].
  cbn [js_insert]. unfold byScoreDesc at 1.
  destruct (Z.ltb_spec 0 (score y - score x)) as [Hlt|Hge].
  - destruct i as [|i]; simpl in Hi.
    + injection Hi as ->. destruct (Z.leb_spec (score u) (score x)); [lia | done].
    + specialize (IH i Hi). destruct (score u <=? score x); exact IH.
  - assert (score u <= score y) as Hu.
    { destruct i as [|i]; simpl in Hi; [injection Hi as ->; lia|].
      rewrite Forall_forall in Hy. apply (Hy u). eapply list_elem_of_lookup_2. exact Hi. }
    destruct (Z.leb_spec (score u) (score x)); [exact Hi | lia].
Qed.

Lemma js_sort_lookup us k u :
  us !! k = Some u -> js_sort byScoreDesc us !! ahead us k (score u) = Some u.
Proof.
  revert k. induction us as [|a us IH]; intros k Hk; [done|].
  cbn [js_sort foldr]. fold (js_sort byScoreDesc us).
  destruct k as [|k]; simpl in Hk.
  - injection Hk as ->. unfold ahead. cbn [take List.filter length].
    unfold scoreAbove at 1. rewrite Z.ltb_irrefl, Nat.add_0_r.
    rewrite <- js_sort_count_above. apply js_insert_lookup_self, js_sort_sorted.
  - pose proof (js_insert_lookup_other a _ _ _ (js_sort_sorted us) (IH k Hk)) as H.
    replace (ahead (a :: us) (S k) (score u))
      with (if score u <=? score a then S (ahead us k (score u)) else ahead us k (score u));
      [exact H|].
    unfold ahead. cbn [take List.filter].
    assert (scoreAbove (score u) a = (score u <? score a)) as -> by done.
    assert (hasScore (score u) a = (score a =? score u)) as -> by done.
    destruct (Z.leb_spec (score u) (score a)), (Z.ltb_spec (score u) (score a)),
      (Z.eqb_spec (score a) (score u)); cbn [length]; lia.
Qed.

(** ** Leaderboard: rank *)

Lemma findIndex_from_lookup {A} (p : A -> bool) l i j x :
  l !! j = Some x -> p x = true ->
  (forall j' y, (j' < j)%nat -> l !! j' = Some y -> p y = false) ->
  findIndex_from p i l = i + Z.of_nat j.
Proof.
  revert i j. induction l as [|y l IH]; intros i j Hj Hx Hbefore; [done|].
  cbn [findIndex_from]. destruct j as [|j]; simpl in Hj.
  - injection Hj as ->. rewrite Hx. lia.
  - rewrite (Hbefore 0%nat y); [|lia|done].
    rewrite (IH (i + 1) j Hj Hx); [lia|].
    intros j' z Hlt Hz. apply (Hbefore (S j') z); [lia | done].
Qed.

Lemma findIndex_from_none {A} (p : A -> bool) l i :
  Forall (fun y => p y = false) l -> findIndex_from p i l = -1.
Proof.
  intros H. revert i. induction H as [|y l Hy _ IH]; intros i; [done|].
  cbn [findIndex_from]. by rewrite Hy.
Qed.

Lemma findIndex_from_imap {A B} (p : B -> bool) (q : A -> bool) (f : nat -> A -> B) l i :
  (forall k a, p (f k a) = q a) ->
  findIndex_from p i (imap f l) = findIndex_from q i l.
Proof.
  revert f i. induction l as [|x l IH]; intros f i Hpq; [done|].
  cbn [imap findIndex_from]. rewrite Hpq. destruct (q x); [done|].
  apply IH. intros k a. apply Hpq.
Qed.

Lemma js_slice0_nonneg {A} n (l : list A) : 0 <= n -> js_slice0 n l = take (Z.to_nat n) l.
Proof.
  intros Hn. unfold js_slice0.
  destruct (Z.ltb_spec n 0); [lia|].
  destruct (Z.min_spec n (Z.of_nat (length l))) as [[_ ->]|[Hle ->]]; [done|].
  rewrite Nat2Z.id. rewrite !take_ge; [done | lia | lia].
Qed.

(** Records with pairwise distinct ids sit at distinct indices. *)
Lemma lookup_id_inj (us : list User) i j u v :
  NoDup (map id us) -> us !! i = Some u -> us !! j = Some v -> id u = id v -> i = j.
Proof.
  intros Hnd Hi Hj Hid.
  eapply NoDup_lookup; [exact Hnd | |].
  - rewrite list_lookup_fmap, Hi. reflexivity.
  - rewrite list_lookup_fmap, Hj. simpl. by rewrite Hid.
Qed.

Lemma findIndex_unique (us : list User) m j u :
  NoDup (map id us) -> us !! j = Some u ->
  findIndex (fun v => String.eqb (id v) (id u)) (take m us)
  = if (j <? m)%nat then Z.of_nat j else -1.
Proof.
  intros Hnd Hj. unfold findIndex. destruct (Nat.ltb_spec j m) as [Hlt|Hge].
  - rewrite (findIndex_from_lookup _ _ 0 j u); [lia | | apply String.eqb_refl |].
    + by rewrite lookup_take_lt.
    + intros j' y Hj' Hy. rewrite lookup_take_lt in Hy by lia.
      apply String.eqb_neq. intros Hid.
      pose proof (lookup_id_inj _ _ _ _ _ Hnd Hy Hj Hid). lia.
  - apply findIndex_from_none. apply Forall_forall. intros y Hy.
    apply list_elem_of_lookup in Hy as [j' Hy].
    pose proof (lookup_lt_Some _ _ _ Hy) as Hlen. rewrite length_take in Hlen.
    rewrite lookup_take_lt in Hy by lia.
    apply String.eqb_neq. intros Hid.
    pose proof (lookup_id_inj _ _ _ _ _ Hnd Hy Hj Hid). lia.
Qed.

Lemma findIndex_absent (us : list User) uid :
  uid ∉ map id us -> findIndex (fun v => String.eqb (id v) uid) us = -1.
Proof.
  intros Hn. apply findIndex_from_none, Forall_forall. intros y Hy.
  apply String.eqb_neq. intros <-. apply Hn. apply list_elem_of_fmap. eauto.
Qed.

Lemma rankOf_unfold now uid us :
  rankOf now uid us
  = findIndex (fun v => String.eqb (id v) uid) (take 100 (js_sort byScoreDesc us)) + 1.
Proof.
  unfold rankOf, getLeaderboard, findIndex.
  rewrite js_slice0_nonneg by lia.
  by rewrite (findIndex_from_imap _ (fun v => String.eqb (id v) uid)).
Qed.


Lemma demoUsers_NoDup : NoDup (map id Demo.demoUsers).
Proof. apply (bool_decide_unpack _). vm_compute. reflexivity. Defined.



(** ** Leaderboard: top N *)

Lemma StronglySorted_lookup_lt {A} (R : A -> A -> Prop) l i j a b :
  StronglySorted R l -> l !! i = Some a -> l !! j = Some b -> (i < j)%nat -> R a b.
Proof.
  intros Hs. revert i j. induction Hs as [|x l Hs IH Hx]; intros i j Hi Hj Hlt; [done|].
  destruct j as [|j]; [lia|]. simpl in Hj. destruct i as [|i]; simpl in Hi.
  - injection Hi as ->. rewrite Forall_forall in Hx. apply Hx.
    eapply list_elem_of_lookup_2. exact Hj.
  - apply (IH i j); [done | done | lia].
Qed.

Lemma StronglySorted_imap {A B} (R : A -> A -> Prop) (R' : B -> B -> Prop)
    (f : nat -> A -> B) l :
  (forall i j a b, R a b -> R' (f i a) (f j b)) ->
  StronglySorted R l -> StronglySorted R' (imap f l).
Proof.
  intros Hf Hs. revert f Hf. induction Hs as [|x l Hs IH Hx]; intros f Hf; [constructor|].
  rewrite imap_cons. constructor.
  - apply IH. intros i j a b. apply Hf.
  - apply Forall_forall. intros y Hy.
    apply elem_of_lookup_imap_1 in Hy as (i & a & -> & Ha).
    apply Hf. rewrite Forall_forall in Hx. apply Hx.
    eapply list_elem_of_lookup_2. exact Ha.
Qed.

Lemma StronglySorted_take {A} (R : A -> A -> Prop) n l :
  StronglySorted R l -> StronglySorted R (take n l).
Proof.
  intros Hs. rewrite <- (take_drop n l) in Hs. by apply StronglySorted_app_1_l in Hs.
Qed.

Lemma filter_take_prefix {A} (p : A -> bool) n l :
  List.filter p (take n l) `prefix_of` List.filter p l.
Proof.
  rewrite <- (take_drop n l) at 2. rewrite List.filter_app. by eexists.
Qed.

Lemma entries_with_score now s (g : nat -> nat) l :
  map e_userId (List.filter (fun e => e_score e =? s) (imap (fun i => toEntry now (g i)) l))
  = map id (List.filter (hasScore s) l).
Proof.
  revert g. induction l as [|x l IH]; intros g; [done|].
  rewrite imap_cons. cbn [List.filter]. unfold hasScore at 1. cbn [toEntry e_score].
  specialize (IH (g ∘ S)). unfold compose in *.
  destruct (score x =? s); cbn [map]; by rewrite IH.
Qed.

(** C5 (amended).  For every store and every limit [n >= 0],
    [getLeaderboard(n)] returns [min n N] entries, sorted by descending
    score; users with equal scores appear in the order in which they were
    inserted into the store (the entries of any one score form a prefix of
    the store's users with that score); the [rank] fields count from 1; no
    user left out has a greater score than a listed one; and [n = 0] gives
    the empty list. *)
Theorem getLeaderboard_topN now n us :
  0 <= n ->
  let lb := getLeaderboard now n us in
  length lb = Nat.min (Z.to_nat n) (length us)
  /\ StronglySorted entryGe lb
  /\ (forall s, map e_userId (List.filter (fun e => e_score e =? s) lb)
                `prefix_of` map id (List.filter (hasScore s) us))
  /\ (forall i e, lb !! i = Some e -> rank e = Z.of_nat i + 1)
  /\ (forall u e, u ∈ us -> id u ∉ map e_userId lb -> e ∈ lb -> score u <= e_score e)
  /\ (n = 0 -> lb = []).
Proof.
  intros Hn lb. subst lb. unfold getLeaderboard. rewrite js_slice0_nonneg by done.
  set (sorted := js_sort byScoreDesc us).
  assert (StronglySorted scoreGe sorted) as Hsorted by apply js_sort_sorted.
  assert (sorted ≡ₚ us) as Hperm by apply js_sort_perm.
  repeat split.
  - rewrite length_imap, length_take. by rewrite Hperm.
  - apply (StronglySorted_imap scoreGe); [by intros | by apply StronglySorted_take].
  - intros s.
    rewrite (entries_with_score now s (fun i => i)).
    rewrite <- (js_sort_stable us s). fold sorted.
    destruct (filter_take_prefix (hasScore s) (Z.to_nat n) sorted) as [k ->].
    rewrite map_app. by eexists.
  - intros i e He. apply list_lookup_imap_Some in He as (u & _ & ->). done.
  - intros u e Hu Hout He.
    apply elem_of_lookup_imap_1 in He as (i & v & -> & Hv).
    apply lookup_take_Some in Hv as [Hv Hi].
    rewrite <- Hperm in Hu. apply list_elem_of_lookup in Hu as [j Hj].
    destruct (Nat.lt_ge_cases j (Z.to_nat n)) as [Hin|Hge].
    + exfalso. apply Hout. apply list_elem_of_fmap.
      exists (toEntry now j u). split; [done|].
      apply elem_of_lookup_imap_2. by rewrite lookup_take_lt.
    + apply (StronglySorted_lookup_lt scoreGe sorted i j v u Hsorted Hv Hj). lia.
  - intros ->. done.
Qed.

Lemma getLeaderboard_topN_witness :
  0 <= 2
  /\ map e_userId (getLeaderboard 0 2 Demo.demoUsers) = ["user-3"; "user-1"]
  /\ length (getLeaderboard 0 2 Demo.demoUsers) = 2%nat
  /\ StronglySorted entryGe (getLeaderboard 0 2 Demo.demoUsers).
Proof.
  split; [lia|]. split; [reflexivity|].
  destruct (getLeaderboard_topN 0 2 Demo.demoUsers) as (Hlen & Hsorted & _); [lia|].
  split; [exact Hlen | exact Hsorted].
Defined.

(** C5, counterexample.  (1) A negative limit does not give an empty
    list: [slice(0, -1)] drops the last entry only.  (2) After the history
    in which Bob reaches 200 points at 10 s and Alice at 20 s, the
    leaderboard lists Alice before Bob: the tie is not broken by the earlier
    update. *)
Lemma topN_spec_counterexample :
  map e_userId (getLeaderboard 0 (-1) Demo.demoUsers) = ["user-3"; "user-1"]
  /\ map (fun e => (e_userId e, e_score e)) (getLeaderboard 30000 10 (users Demo.stTie))
     = [("user-3", 300); ("user-1", 200); ("user-2", 200)]
  /\ Demo.tieTimes !! "user-1" = Some 20000
  /\ Demo.tieTimes !! "user-2" = Some 10000.
Proof. vm_compute. repeat split. Qed.

(** ** The complete-action handler, case by case *)

Lemma completeAction_outcome now userId body st :
  Outcome now userId body st (completeAction now userId body st).
Proof.
  unfold completeAction.
  destruct (verifyToken now (actionToken body)) as [decoded|] eqn:Hv;
    [|apply OutInvalid; congruence].
  destruct (String.eqb_spec (Jwt.userId decoded) userId) as [Hu|Hu]; cbn [negb];
    [|apply OutInvalid; congruence].
  destruct (actionTokens st !! actionId body) as [storedToken|] eqn:Hs;
    [|eapply OutUsed; [done | done | congruence]].
  destruct (used storedToken) eqn:Hused;
    [eapply OutUsed; [done | done | congruence]|].
  assert (tokenValid now userId body st) as Hvalid by (by exists decoded, storedToken).
  destruct (checkRateLimit now userId (rateLimits st)) as [ok rl] eqn:Hrl.
  destruct ok; cbn [negb].
  2:{ apply OutRate; [done|]. unfold rateOk. by rewrite Hrl. }
  assert (rateOk now userId st) as Hrate by (unfold rateOk; by rewrite Hrl).
  replace rl with (checkRateLimit now userId (rateLimits st)).2 by (by rewrite Hrl).
  destruct (suspicious (effectiveCompletionTime (completionTime body))) eqn:Ht.
  { apply OutTiming; [done | done |]. unfold timingOk. by rewrite Ht. }
  cbn [users actionTokens rateLimits].
  destruct (users_get userId (users st)) as [user|] eqn:Hg.
  - by apply (OutUpdated now userId body st storedToken user).
  - by apply (OutNoUser now userId body st storedToken).
Qed.

(** Case analysis on the way a request went through the handler. *)
Ltac outcome now userId body st :=
  destruct (completeAction_outcome now userId body st) as
    [Hinv|decoded Hv Hu Hs|Hvalid' Hnrate|Hvalid' Hrate' Hntime
    |stored Hok Hs Hg|stored user Hok Hs Hg];
  cbn [response state emitted fst snd users actionTokens rateLimits].

(** A valid token is neither rejected by [verifyToken] nor found used. *)
Ltac valid_token_absurd Hvalid :=
  match goal with
  | Hinv : forall d, verifyToken _ _ = Some d -> _ <> _ |- _ =>
      let d := fresh in let s := fresh in let Hv := fresh in
      destruct Hvalid as (d & s & Hv & ? & _); by destruct (Hinv d Hv)
  | Hs : forall s, actionTokens _ !! _ = Some s -> used s = true |- _ =>
      let d := fresh in let s := fresh in let Hs' := fresh in
      destruct Hvalid as (d & s & _ & _ & Hs' & ?);
      specialize (Hs s Hs'); congruence
  end.

(** ** Order of operations *)

(** C1.  For every complete-action request: a response that is an error
    leaves every user record (hence every score) as it was and sends
    nothing; the user records change only if the caller was authenticated,
    the token was valid, the rate limit and the completion-time check both
    passed, and the token is marked used afterwards; and whenever one of the
    token, rate-limit or timing checks fails the response is an error. *)
Theorem no_mutation_before_checks now auth body st :
  let r := completeRoute now auth body st in
  (isError (response r) -> users (state r) = users st /\ emitted r = [])
  /\ (users (state r) <> users st ->
      exists userId, authenticate now auth = inr userId
                     /\ checksPassed now userId body st
                     /\ consumed (actionId body) (state r))
  /\ (forall userId, authenticate now auth = inr userId ->
                     ~ checksPassed now userId body st -> isError (response r)).
Proof.
  intros r. subst r. unfold completeRoute.
  destruct (authenticate now auth) as [err|userId] eqn:Hauth.
  { cbn. split; [done|]. split; [done|]. intros ? [=]. }
  outcome now userId body st.
  - split; [done|]. split; [done|]. intros ? [= <-] _. exact I.
  - split; [done|]. split; [done|]. intros ? [= <-] _. exact I.
  - split; [done|]. split; [done|]. intros ? [= <-] _. exact I.
  - split; [done|]. split; [done|]. intros ? [= <-] _. exact I.
  - split; [done|]. split; [done|]. intros ? [= <-] _. exact I.
  - split; [done|]. split.
    + intros _. exists userId. split; [done|]. split; [done|].
      unfold consumed. cbn [actionTokens]. by rewrite lookup_insert_eq.
    + intros ? [= <-] Hno. by destruct Hno.
Qed.

Lemma no_mutation_before_checks_witness :
  isError (response (completeRoute 6000 (Some Demo.aliceLogin)
                       (Demo.bodyFor Demo.issued1 (Some 100)) Demo.st1))
  /\ users (state (completeRoute 6000 (Some Demo.aliceLogin)
                     (Demo.bodyFor Demo.issued1 (Some 100)) Demo.st1))
     = users Demo.st1.
Proof.
  split; [vm_compute; exact I|].
  apply (no_mutation_before_checks 6000 (Some Demo.aliceLogin)
           (Demo.bodyFor Demo.issued1 (Some 100)) Demo.st1).
  vm_compute. exact I.
Defined.

(** ** Anti-cheat failure and the token *)

(** C2 (amended).  When the presented token is valid (it verifies, is
    bound to the caller, and its stored record exists and is unused) and the
    rate limit or the completion-time check fails, the request is rejected
    with the rate-limit or the suspicious-timing error, the token store is
    exactly as before, so the token is still unused and can be presented
    again, and every user record is unchanged. *)
Theorem anti_cheat_failure_keeps_token now userId body st :
  tokenValid now userId body st ->
  ~ rateOk now userId st \/ ~ timingOk body ->
  let r := completeAction now userId body st in
  (response r = R429_RateLimitExceeded 60 \/ response r = R400_SuspiciousCompletionTime)
  /\ actionTokens (state r) = actionTokens st
  /\ ~ consumed (actionId body) (state r)
  /\ users (state r) = users st.
Proof.
  intros Hvalid Hfail r. subst r.
  assert (~ consumed (actionId body) st) as Hfresh.
  { destruct Hvalid as (decoded & stored & _ & _ & Hs & Hused).
    unfold consumed. rewrite Hs. simpl. congruence. }
  outcome now userId body st.
  - valid_token_absurd Hvalid.
  - valid_token_absurd Hvalid.
  - by auto.
  - by auto.
  - destruct Hok as (_ & ? & ?). tauto.
  - destruct Hok as (_ & ? & ?). tauto.
Qed.

Lemma aliceToken_valid :
  tokenValid 6000 "user-1" (Demo.bodyFor Demo.issued1 (Some 100)) Demo.st1.
Proof. eexists _, _. repeat split; reflexivity. Defined.

Lemma anti_cheat_failure_keeps_token_witness :
  tokenValid 6000 "user-1" (Demo.bodyFor Demo.issued1 (Some 100)) Demo.st1
  /\ ~ timingOk (Demo.bodyFor Demo.issued1 (Some 100))
  /\ actionTokens (state (completeAction 6000 "user-1"
                            (Demo.bodyFor Demo.issued1 (Some 100)) Demo.st1))
     = actionTokens Demo.st1.
Proof.
  assert (~ timingOk (Demo.bodyFor Demo.issued1 (Some 100))) as Hslow
    by (vm_compute; discriminate).
  split; [exact aliceToken_valid|]. split; [exact Hslow|].
  apply (anti_cheat_failure_keeps_token 6000 "user-1"
           (Demo.bodyFor Demo.issued1 (Some 100)) Demo.st1 aliceToken_valid
           (or_intror Hslow)).
Defined.

(** C2, counterexample.  Alice presents her valid token with a completion
    time of 100 ms.  The request is rejected as suspicious, yet the stored
    token is still unused, and presenting the same token again with a
    plausible completion time succeeds. *)
Lemma fail_closed_counterexample :
  response (completeAction 6000 "user-1" (Demo.bodyFor Demo.issued1 (Some 100)) Demo.st1)
  = R400_SuspiciousCompletionTime
  /\ used <$> (actionTokens (state (completeAction 6000 "user-1"
                                      (Demo.bodyFor Demo.issued1 (Some 100)) Demo.st1))
               !! "a1") = Some false
  /\ response (completeAction 7000 "user-1" (Demo.bodyFor Demo.issued1 (Some 5000))
                 (state (completeAction 6000 "user-1"
                           (Demo.bodyFor Demo.issued1 (Some 100)) Demo.st1)))
     = R200_ScoreUpdated 100 200 2.
Proof. vm_compute. repeat split. Qed.

(** ** Expiry *)


Lemma requestAction_expiry now userId actionType newId nonce st :
  exists p, response (requestAction now userId actionType newId nonce st)
            = R200_ActionToken (Jwt.Signed p) newId (now + 300000)
            /\ 1000 * Jwt.exp p <= now + 300000.
Proof.
  eexists. split; [reflexivity|]. cbn [Jwt.exp].
  pose proof (Z.mul_div_le now 1000). lia.
Qed.


(** The expiry belongs to the signed token that is presented.  The record
    stored under an action id has no age limit of its own and is not compared
    with the signed payload: at 400 s Alice's action id of 1 s is still
    accepted when it comes with a signed token that verifies, here her
    login token of 399 s. *)
Lemma stored_record_has_no_expiry :
  response (completeAction 400000 "user-1"
              {| actionToken := generateToken 399000 (Demo.mkUser "user-1" "Alice" 100);
                 actionId := "a1"; completionTime := Some 5000 |} Demo.st1)
  = R200_ScoreUpdated 100 200 2.
Proof. reflexivity. Qed.

(** ** Single use *)








(** ** Rate limiting *)

Lemma recentActions_within now l : Forall (fun t => now - t < 60000) (recentActions now l).
Proof.
  apply Forall_forall. intros t Ht. apply list_elem_of_In in Ht.
  apply List.filter_In in Ht as [_ Ht]. lia.
Qed.

Lemma recentActions_length now l : (length (recentActions now l) <= length l)%nat.
Proof. apply List.filter_length_le. Qed.

Lemma recentActions_full now l :
  length (recentActions now l) = length l -> recentActions now l = l.
Proof.
  intros H. apply List.filter_length_forallb in H.
  unfold recentActions. apply List.forallb_filter_id. exact H.
Qed.

Lemma recentActions_expired now last l :
  Forall (fun t => t <= last) l -> last + 60000 <= now -> recentActions now l = [].
Proof.
  intros Hl Hnow. induction Hl as [|t l Ht _ IH]; [done|].
  unfold recentActions in *. cbn [List.filter].
  destruct (Z.ltb_spec (now - t) 60000); [lia | exact IH].
Qed.

Lemma checkRateLimit_bounded now userId rl :
  rateBounded rl -> rateBounded (checkRateLimit now userId rl).2.
Proof.
  intros Hb. unfold checkRateLimit.
  destruct (Nat.leb_spec 10 (length (recentActions now (default [] (rl !! userId)))));
    cbn [snd]; [done|].
  intros u l. destruct (decide (userId = u)) as [<-|Hne].
  - rewrite lookup_insert_eq. intros [= <-]. rewrite length_app. simpl. lia.
  - rewrite lookup_insert_ne by done. apply Hb.
Qed.

(** C7.  [checkRateLimit] rejects exactly when at least 10 of the user's
    recorded timestamps lie within 60000 ms of now.  A rejection leaves the store
    as it is; an acceptance stores the timestamps within the window followed
    by now.  When no user has more than 10 recorded timestamps (true
    initially and kept by every check), the store holds no timestamp of the
    user outside the window after any check.  If every recorded timestamp
    is at least 60000 ms old the check accepts and the record becomes
    [[now]]: a user who was rate limited is accepted again once the window
    has elapsed without new actions. *)
Theorem checkRateLimit_window now userId rl :
  let stored := default [] (rl !! userId) in
  let r := checkRateLimit now userId rl in
  (r.1 = false <-> (10 <= length (recentActions now stored))%nat)
  /\ (r.1 = false -> r.2 = rl)
  /\ (r.1 = true -> r.2 = <[userId := recentActions now stored ++ [now]]> rl)
  /\ (rateBounded rl ->
      rateBounded r.2 /\ Forall (fun t => now - t < 60000) (default [] (r.2 !! userId)))
  /\ (forall last, Forall (fun t => t <= last) stored -> last + 60000 <= now ->
      r.1 = true /\ r.2 !! userId = Some [now]).
Proof.
  intros stored r. subst r. unfold checkRateLimit. fold stored.
  destruct (Nat.leb_spec 10 (length (recentActions now stored))) as [Hfull|Hroom]; cbn [fst snd].
  - split; [done|]. split; [done|]. split; [done|]. split.
    + intros Hb. split; [done|].
      assert (length stored <= 10)%nat as Hlen.
      { unfold stored. destruct (rl !! userId) as [l|] eqn:Hl; [by apply (Hb userId) | simpl; lia]. }
      pose proof (recentActions_length now stored).
      fold stored. rewrite <- (recentActions_full now stored) by lia.
      apply recentActions_within.
    + intros last Hl Hnow. rewrite (recentActions_expired now last) in Hfull by done.
      simpl in Hfull. lia.
  - split; [split; [done | lia]|]. split; [done|]. split; [done|]. split.
    + intros Hb. split.
      * pose proof (checkRateLimit_bounded now userId rl Hb) as Hb'.
        unfold checkRateLimit in Hb'. fold stored in Hb'.
        destruct (Nat.leb_spec 10 (length (recentActions now stored))); [lia | exact Hb'].
      * rewrite lookup_insert_eq. simpl. apply Forall_app. split.
        -- apply recentActions_within.
        -- constructor; [lia | constructor].
    + intros last Hl Hnow. split; [done|].
      rewrite lookup_insert_eq. by rewrite (recentActions_expired now last).
Qed.

Lemma checkRateLimit_window_witness :
  (checkRateLimit 2000 "user-1" Demo.busy).1 = false
  /\ (checkRateLimit 61009 "user-1" Demo.busy).1 = true
  /\ (checkRateLimit 61009 "user-1" Demo.busy).2 !! "user-1" = Some [61009].
Proof.
  split.
  - apply (checkRateLimit_window 2000 "user-1" Demo.busy). vm_compute. lia.
  - apply (checkRateLimit_window 61009 "user-1" Demo.busy) with (last := 1009); [|lia].
    vm_compute. repeat constructor; discriminate.
Defined.

(** The handler answers 429 exactly when the rate check rejects a request
    that carries a valid token. *)
Lemma rate_limit_response now userId body st :
  tokenValid now userId body st ->
  response (completeAction now userId body st) = R429_RateLimitExceeded 60
  <-> (checkRateLimit now userId (rateLimits st)).1 = false.
Proof.
  intros Hvalid. outcome now userId body st.
  - valid_token_absurd Hvalid.
  - valid_token_absurd Hvalid.
  - unfold rateOk in Hnrate. split; [intros _; by apply not_true_is_false | done].
  - unfold rateOk in Hrate'. rewrite Hrate'. split; done.
  - destruct Hok as (_ & Hr & _). unfold rateOk in Hr. rewrite Hr. split; done.
  - destruct Hok as (_ & Hr & _). unfold rateOk in Hr. rewrite Hr. split; done.
Qed.

(** The bound on the rate-limit store holds along every history that
    starts with a bounded store, in particular with the empty one. *)
Lemma run_rateBounded evs st :
  rateBounded (rateLimits st) -> rateBounded (rateLimits (run evs st)).
Proof.
  revert st. induction evs as [|e evs IH]; intros st Hb; [done|].
  cbn [run]. apply IH.
  destruct e as [now u ty newId nonce|now u body]; cbn [step]; [done|].
  outcome now u body st; try done; by apply checkRateLimit_bounded.
Qed.

(** ** Completion time *)




(** C10.  When the proof carries no [completionTime], or carries 0, the
    value checked is the default 10000, which lies within the bounds: the
    timing check passes and the response is never the suspicious-timing
    error. *)
Theorem missing_completionTime_passes now userId body st :
  completionTime body = None \/ completionTime body = Some 0 ->
  effectiveCompletionTime (completionTime body) = 10000
  /\ timingOk body
  /\ response (completeAction now userId body st) <> R400_SuspiciousCompletionTime.
Proof.
  intros Hct.
  assert (effectiveCompletionTime (completionTime body) = 10000) as Heff
    by (by destruct Hct as [-> | ->]).
  assert (timingOk body) as Hok by (unfold timingOk; by rewrite Heff).
  split; [done|]. split; [done|].
  destruct (completeAction_outcome now userId body st); cbn [response fst]; done.
Qed.

Lemma missing_completionTime_passes_witness :
  completionTime (Demo.bodyFor Demo.issued1 None) = None
  /\ response (completeAction 6000 "user-1" (Demo.bodyFor Demo.issued1 None) Demo.st1)
     <> R400_SuspiciousCompletionTime.
Proof.
  split; [reflexivity|].
  apply (missing_completionTime_passes 6000 "user-1" (Demo.bodyFor Demo.issued1 None) Demo.st1).
  left. reflexivity.
Defined.

(** ** Broadcast *)

Lemma step_emits e st :
  length (List.filter isLeaderboardUpdate (emitted (step e st)))
  = if isScoreUpdated (response (step e st)) then 1%nat else 0%nat.
Proof.
  destruct e as [now u ty newId nonce|now u body]; cbn [step]; [done|].
  by destruct (completeAction_outcome now u body st).
Qed.

(** C9 (amended).  Broadcasts are not coalesced: every complete-action
    request that updates a score sends, at once, exactly one leaderboard
    snapshot, the top 10 of the store just after the update, stamped with
    the time of the request, followed by one score update; every other
    request sends nothing.  Over any history the number of snapshots sent
    equals the number of successful score updates. *)
Theorem broadcast_per_update :
  (forall now userId body st,
     let r := completeAction now userId body st in
     if isScoreUpdated (response r)
     then exists oldScore newScore newRank,
            emitted r = [ LeaderboardUpdate (getLeaderboard now 10 (users (state r))) now;
                          ScoreUpdate userId oldScore newScore scoreIncrement newRank ]
     else emitted r = [])
  /\ (forall evs st,
        length (List.filter isLeaderboardUpdate (concat (map emitted (trace evs st))))
        = length (List.filter (fun r => isScoreUpdated (response r)) (trace evs st))).
Proof.
  split.
  - intros now userId body st r. subst r.
    destruct (completeAction_outcome now userId body st); cbn; try done.
    by eexists _, _, _.
  - intros evs. induction evs as [|e evs IH]; intros st; [done|].
    cbn [trace map concat List.filter]. rewrite List.filter_app, length_app, IH, step_emits.
    by destruct (isScoreUpdated (response (step e st))).
Qed.

Lemma broadcast_per_update_witness :
  length (List.filter isLeaderboardUpdate (concat (map emitted (trace Demo.burst Demo.st1))))
  = 2%nat.
Proof.
  rewrite (proj2 broadcast_per_update Demo.burst Demo.st1). reflexivity.
Defined.

(** C9, counterexample.  Bob and Alice complete their actions 1 ms apart.
    Two leaderboard snapshots are sent, at 10000 and at 10001, within one
    interval of 1000 ms, and the first is not the latest top 10. *)
Lemma coalescing_counterexample :
  broadcastTimes (trace Demo.burst Demo.st1) = [10000; 10001]
  /\ map isScoreUpdated (map response (trace Demo.burst Demo.st1)) = [true; true]
  /\ concat (map emitted (trace Demo.burst Demo.st1))
     = [ LeaderboardUpdate (getLeaderboard 10000 10
                              (users (run (take 1 Demo.burst) Demo.st1))) 10000;
         ScoreUpdate "user-2" 100 200 100 2;
         LeaderboardUpdate (getLeaderboard 10001 10 (users (run Demo.burst Demo.st1))) 10001;
         ScoreUpdate "user-1" 100 200 100 2 ].
Proof. vm_compute. repeat split. Qed.

(** * Further properties *)

(** ** Login and authentication *)

Lemma seconds_lt t k : (t / 1000 <? k) = (t <? 1000 * k).
Proof.
  destruct (Z.ltb_spec (t / 1000) k) as [H|H], (Z.ltb_spec t (1000 * k)) as [H'|H'];
    try done; exfalso.
  - apply Z.div_le_lower_bound in H'; lia.
  - apply Z.div_lt_upper_bound in H'; lia.
Qed.

Lemma verify_sign now c ttl t :
  Jwt.verify t (Jwt.sign now c ttl)
  = if t <? expiryMs now ttl
    then Some {| Jwt.claims := c; Jwt.iat := now / 1000; Jwt.exp := now / 1000 + ttl |}
    else None.
Proof.
  unfold Jwt.verify, Jwt.sign, expiryMs. cbn [Jwt.exp]. rewrite seconds_lt.
  replace (1000 * (now / 1000 + ttl)) with (now - now mod 1000 + 1000 * ttl); [done|].
  pose proof (Z.div_mod now 1000). lia.
Qed.

Lemma authenticate_signed t0 c ttl t :
  authenticate t (Some (Jwt.sign t0 c ttl))
  = if t <? expiryMs t0 ttl
    then inr (Jwt.userId {| Jwt.claims := c; Jwt.iat := t0 / 1000; Jwt.exp := t0 / 1000 + ttl |})
    else inl R401_InvalidToken.
Proof.
  unfold authenticate, verifyToken. rewrite verify_sign. by destruct (t <? expiryMs t0 ttl).
Qed.

(** X1.  A login token issued at [t0] authenticates its user exactly at the
    times before [t0 + 3600000 - t0 mod 1000] ms (the [exp] claim counts
    whole seconds), so for at least 3599 s; from that instant on
    [authenticate] answers 401, invalid token. *)
Theorem login_token_window t0 u t :
  (authenticate t (Some (generateToken t0 u)) = inr (id u)
   <-> t < t0 + 3600000 - t0 mod 1000)
  /\ (t0 + 3600000 - t0 mod 1000 <= t ->
      authenticate t (Some (generateToken t0 u)) = inl R401_InvalidToken)
  /\ (t0 <= t <= t0 + 3599000 -> authenticate t (Some (generateToken t0 u)) = inr (id u)).
Proof.
  unfold generateToken. rewrite authenticate_signed. cbn [Jwt.userId Jwt.claims].
  unfold expiryMs. pose proof (Z.mod_pos_bound t0 1000).
  destruct (Z.ltb_spec t (t0 - t0 mod 1000 + 1000 * 3600)); repeat split; intros; try done; lia.
Qed.

Lemma login_token_window_witness :
  0 <= 3599000 <= 0 + 3599000
  /\ authenticate 3599000 (Some Demo.aliceLogin) = inr "user-1".
Proof.
  split; [lia|].
  apply (login_token_window 0 (Demo.mkUser "user-1" "Alice" 100) 3599000). lia.
Defined.

Lemma find_first_unique (us : list User) (p : User -> bool) u :
  u ∈ us -> p u = true -> (forall v, v ∈ us -> p v = true -> v = u) ->
  List.find p us = Some u.
Proof.
  induction us as [|x us IH]; intros Hin Hp Huniq; [by apply elem_of_nil in Hin|].
  cbn [List.find]. destruct (p x) eqn:Hx.
  - f_equal. apply Huniq; [left | done].
  - apply IH; [|done|].
    + apply elem_of_cons in Hin as [->|]; [congruence | done].
    + intros v Hv. apply Huniq. by right.
Qed.

(** X2.  Logging in with the name and the password of a stored user, whose
    name no other user has, returns a fresh token for that user together with
    the user's id, name and score; when no stored user has both the given
    name and the given password the answer is 401, invalid credentials,
    whether the name or the password is the wrong one. *)
Theorem login_credentials now st :
  (forall user, user ∈ users st ->
     (forall v, v ∈ users st -> username v = username user -> v = user) ->
     login now (Some (username user)) (Some (password user)) st
     = L200_LoggedIn (generateToken now user) (id user) (username user) (score user))
  /\ (forall un pw,
        (forall user, user ∈ users st -> Some (username user) = un -> Some (password user) <> pw) ->
        login now un pw st = L401_InvalidCredentials).
Proof.
  split.
  - intros user Hin Huniq. unfold login.
    rewrite (find_first_unique _ _ user Hin).
    + by rewrite bool_decide_eq_true_2.
    + by apply bool_decide_eq_true_2.
    + intros v Hv Hname. apply bool_decide_eq_true_1 in Hname. apply Huniq; congruence.
  - intros un pw Hno. unfold login.
    destruct (List.find _ (users st)) as [user|] eqn:Hf; [|done].
    apply List.find_some in Hf as [Hin Hname].
    apply bool_decide_eq_true_1 in Hname.
    rewrite bool_decide_eq_false_2; [done|].
    apply Hno; [by apply list_elem_of_In | done].
Qed.

Lemma alice_name_unique v :
  v ∈ users Demo.st1 -> username v = "Alice" -> v = Demo.mkUser "user-1" "Alice" 100.
Proof.
  intros Hv Hname. cbn in Hv.
  repeat (apply elem_of_cons in Hv as [->|Hv]; [first [reflexivity | discriminate Hname]|]).
  by apply elem_of_nil in Hv.
Defined.

Lemma login_credentials_witness :
  Demo.mkUser "user-1" "Alice" 100 ∈ users Demo.st1
  /\ login 0 (Some "Alice") (Some "demo123") Demo.st1
     = L200_LoggedIn Demo.aliceLogin "user-1" "Alice" 100
  /\ login 0 (Some "Alice") None Demo.st1 = L401_InvalidCredentials.
Proof.
  assert (Demo.mkUser "user-1" "Alice" 100 ∈ users Demo.st1) as Hin by (cbn; left).
  split; [exact Hin|]. split.
  - exact (proj1 (login_credentials 0 Demo.st1) _ Hin alice_name_unique).
  - apply (proj2 (login_credentials 0 Demo.st1)). intros user _ _. discriminate.
Defined.

(** ** Issuing and completing *)




(** ** Score accounting *)


Lemma users_update_ids uid us : map id (users_update uid addScore us) = map id us.
Proof.
  induction us as [|x us IH]; [done|].
  cbn [users_update List.map map]. fold (users_update uid addScore us). rewrite IH.
  by destruct (String.eqb (id x) uid).
Qed.

Lemma users_update_grew uid us : Forall2 grewFrom us (users_update uid addScore us).
Proof.
  induction us as [|x us IH]; [constructor|].
  cbn [users_update List.map]. constructor; [|exact IH].
  destruct (String.eqb (id x) uid); unfold grewFrom, addScore, scoreIncrement; cbn;
    repeat split; lia.
Qed.


Lemma grewFrom_refl us : Forall2 grewFrom us us.
Proof.
  apply Forall_Forall2_diag, Forall_forall. intros u _. unfold grewFrom.
  repeat split; lia.
Qed.

Lemma grewFrom_trans us vs ws :
  Forall2 grewFrom us vs -> Forall2 grewFrom vs ws -> Forall2 grewFrom us ws.
Proof.
  intros H. revert ws. induction H as [|u v us vs Huv _ IH]; intros ws Hw.
  - by apply Forall2_nil_inv_l in Hw as ->.
  - apply Forall2_cons_inv_l in Hw as (w & ws' & Hvw & Hrest & ->).
    constructor; [|by apply IH].
    unfold grewFrom in *. destruct Huv as (? & ? & ? & ?), Hvw as (? & ? & ? & ?).
    repeat split; [congruence | congruence | congruence | lia].
Qed.




(** ** Leaderboard and rank agree *)

(** X5.  With distinct user ids, every entry of a leaderboard of at most
    100 entries carries as [rank] the very rank that the score endpoint and
    the completion response compute for that user. *)
Theorem leaderboard_rank_is_rankOf now now' n us e :
  NoDup (map id us) -> 0 <= n <= 100 ->
  e ∈ getLeaderboard now n us ->
  rankOf now' (e_userId e) us = rank e.
Proof.
  intros Hnd Hn He. unfold getLeaderboard in He.
  rewrite js_slice0_nonneg in He by lia.
  apply elem_of_lookup_imap_1 in He as (i & u & -> & Hu).
  apply lookup_take_Some in Hu as [Hu Hi].
  rewrite rankOf_unfold. cbn [toEntry e_userId rank].
  rewrite (findIndex_unique _ 100 i u); [| by rewrite (js_sort_perm byScoreDesc us) | done].
  destruct (Nat.ltb_spec i 100); lia.
Qed.

Lemma leaderboard_rank_is_rankOf_witness :
  toEntry 0 2 (Demo.mkUser "user-2" "Bob" 100) ∈ getLeaderboard 0 10 Demo.demoUsers
  /\ rankOf 5 "user-2" Demo.demoUsers = 3.
Proof.
  assert (toEntry 0 2 (Demo.mkUser "user-2" "Bob" 100) ∈ getLeaderboard 0 10 Demo.demoUsers)
    as Hin by (apply list_elem_of_lookup; exists 2%nat; reflexivity).
  split; [exact Hin|].
  exact (leaderboard_rank_is_rankOf 0 5 10 Demo.demoUsers
           (toEntry 0 2 (Demo.mkUser "user-2" "Bob" 100)) demoUsers_NoDup ltac:(lia) Hin).
Defined.

Lemma entryFields_imap now l :
  map entryFields (imap (toEntry now) l) = map publicFields l.
Proof.
  change (map entryFields (imap (toEntry now) l)) with (entryFields <$> imap (toEntry now) l).
  rewrite fmap_imap. change (fun n => entryFields ∘ toEntry now n) with (fun (_ : nat) => publicFields).
  apply imap_const.
Qed.

(** X6.  For a limit [n >= 0] the leaderboard shows only stored users,
    none more often than the store holds it, each with its stored name and
    score; when [n] is at least the number of users it shows every user
    exactly once and the ranks are 1, 2, ..., N. *)
Theorem leaderboard_lists_users now n us :
  0 <= n ->
  map entryFields (getLeaderboard now n us) ⊆+ map publicFields us
  /\ (Z.of_nat (length us) <= n ->
      map entryFields (getLeaderboard now n us) ≡ₚ map publicFields us
      /\ map rank (getLeaderboard now n us) = seqZ 1 (Z.of_nat (length us))).
Proof.
  intros Hn. unfold getLeaderboard. rewrite js_slice0_nonneg by done.
  rewrite entryFields_imap. split.
  - rewrite <- (js_sort_perm byScoreDesc us) at 2.
    apply fmap_submseteq, submseteq_take.
  - intros Hall. rewrite take_ge.
    2:{ rewrite (js_sort_perm byScoreDesc us). lia. }
    split; [by rewrite (js_sort_perm byScoreDesc us)|].
    rewrite <- (Permutation_length (js_sort_perm byScoreDesc us)).
    generalize (js_sort byScoreDesc us). intros l.
    apply list_eq. intros i. rewrite list_lookup_fmap, list_lookup_imap.
    destruct (l !! i) as [u|] eqn:Hi; cbn.
    + apply lookup_lt_Some in Hi. rewrite lookup_seqZ_lt by lia. f_equal. lia.
    + apply lookup_ge_None in Hi. rewrite lookup_seqZ_ge by lia. done.
Qed.

Lemma leaderboard_lists_users_witness :
  0 <= 10
  /\ map entryFields (getLeaderboard 0 10 Demo.demoUsers) ≡ₚ map publicFields Demo.demoUsers
  /\ map rank (getLeaderboard 0 10 Demo.demoUsers) = [1; 2; 3].
Proof.
  split; [lia|].
  apply (leaderboard_lists_users 0 10 Demo.demoUsers); [lia | cbn; lia].
Defined.

(** X7.  The page size of [GET /api/leaderboard] with N stored users: 10
    (or N if smaller) when the limit is absent, unparsable or 0; the limit
    (or N if smaller) when it is positive; and [N + limit] (or 0 if that is
    negative) when the limit is negative.  The route changes no store and
    sends nothing. *)
Theorem leaderboard_page_size now q st :
  let N := Z.of_nat (length (users st)) in
  let lb := getLeaderboard now (leaderboardLimit q) (users st) in
  getLeaderboardRoute now q st = (R200_Leaderboard lb now, st, [])
  /\ Z.of_nat (length lb)
     = match q with
       | None => Z.min 10 N
       | Some n => if n =? 0 then Z.min 10 N
                   else if n <? 0 then Z.max (N + n) 0
                   else Z.min n N
       end.
Proof.
  intros N lb. split; [done|]. subst N lb.
  unfold getLeaderboard, js_slice0, leaderboardLimit.
  rewrite length_imap, length_take, (Permutation_length (js_sort_perm byScoreDesc (users st))).
  cbv zeta. destruct q as [n|]; [destruct (Z.eqb_spec n 0)|];
    repeat match goal with |- context [?a <? ?b] => destruct (Z.ltb_spec a b) end; lia.
Qed.

(** ** Rate limiter over several calls *)

Lemma recentActions_all now l :
  Forall (fun t => now - t < 60000) l -> recentActions now l = l.
Proof.
  induction 1 as [|t l Ht _ IH]; [done|].
  unfold recentActions in *. cbn [List.filter].
  destruct (Z.ltb_spec (now - t) 60000); [by rewrite IH | lia].
Qed.

Lemma checkRateLimit_recent now userId rl l :
  default [] (rl !! userId) = l -> Forall (fun t => now - t < 60000) l ->
  checkRateLimit now userId rl
  = if (10 <=? length l)%nat then (false, rl) else (true, <[userId := l ++ [now]]> rl).
Proof.
  intros Hl Hwin. unfold checkRateLimit. rewrite Hl. cbv zeta.
  by rewrite recentActions_all.
Qed.

Lemma checkAll_burst userId ts rl l :
  rl !! userId = Some l -> (length l <= 10)%nat ->
  Forall (fun now => Forall (fun t => now - t < 60000) (l ++ ts)) ts ->
  checkAll userId ts rl
  = replicate (Nat.min (10 - length l) (length ts)) true
    ++ replicate (length ts - (10 - length l)) false.
Proof.
  revert rl l. induction ts as [|now ts IH]; intros rl l Hl Hlen Hwin.
  { cbn [length]. by rewrite Nat.min_0_r. }
  apply Forall_cons in Hwin as [Hnow Hwin].
  cbn [checkAll]. rewrite (checkRateLimit_recent now userId rl l);
    [| by rewrite Hl | by apply Forall_app in Hnow as [? _]].
  destruct (Nat.leb_spec 10 (length l)) as [Hfull|Hroom]; cbn [fst snd].
  - rewrite (IH rl l Hl Hlen).
    + replace (10 - length l)%nat with 0%nat by lia.
      rewrite !Nat.min_0_l, !Nat.sub_0_r. done.
    + eapply Forall_impl; [exact Hwin|]. intros t Ht. cbn beta in Ht.
      apply Forall_app in Ht as [? Ht]. apply Forall_cons in Ht as [_ ?]. by apply Forall_app.
  - rewrite (IH _ (l ++ [now])).
    + rewrite length_app. cbn [length].
      replace (Nat.min (10 - length l) (S (length ts)))
        with (S (Nat.min (10 - (length l + 1)) (length ts))) by lia.
      replace (S (length ts) - (10 - length l))%nat
        with (length ts - (10 - (length l + 1)))%nat by lia.
      done.
    + apply lookup_insert_eq.
    + rewrite length_app. cbn. lia.
    + eapply Forall_impl; [exact Hwin|]. intros t Ht. cbn beta in Ht.
      by rewrite <- app_assoc.
Qed.

(** X8.  Starting with no record for the user, rate checks made at times
    that all lie within one window of each other accept the first ten and
    reject every further one. *)
Theorem rate_limit_burst userId ts rl :
  rl !! userId = None ->
  (forall a b, a ∈ ts -> b ∈ ts -> a - b < 60000) ->
  checkAll userId ts rl
  = replicate (Nat.min 10 (length ts)) true ++ replicate (length ts - 10) false.
Proof.
  intros Hnone Hwin. destruct ts as [|now ts]; [done|].
  cbn [checkAll]. rewrite (checkRateLimit_recent now userId rl []);
    [| by rewrite Hnone | constructor].
  cbn [length Nat.leb fst snd app].
  rewrite (checkAll_burst userId ts _ [now]).
  - cbn [length]. replace (Nat.min 10 (S (length ts))) with (S (Nat.min (10 - 1) (length ts))) by lia.
    done.
  - apply lookup_insert_eq.
  - cbn. lia.
  - apply Forall_forall. intros a Ha. apply Forall_forall. intros b Hb.
    apply Hwin; [by right|]. exact Hb.
Qed.

Lemma rate_limit_burst_witness :
  checkAll "user-1" [1000; 1001; 1002; 1003; 1004; 1005; 1006; 1007; 1008; 1009; 1010] ∅
  = [true; true; true; true; true; true; true; true; true; true; false].
Proof.
  apply (rate_limit_burst "user-1"
           [1000; 1001; 1002; 1003; 1004; 1005; 1006; 1007; 1008; 1009; 1010] ∅).
  - reflexivity.
  - assert (Forall (fun a => 1000 <= a <= 1010)
              [1000; 1001; 1002; 1003; 1004; 1005; 1006; 1007; 1008; 1009; 1010]) as Hall
      by (repeat constructor; lia).
    rewrite Forall_forall in Hall. intros a b Ha Hb.
    pose proof (Hall a Ha). pose proof (Hall b Hb). lia.
Defined.

(** ** What a completion touches *)

Lemma checkRateLimit_other now userId rl v :
  v <> userId -> (checkRateLimit now userId rl).2 !! v = rl !! v.
Proof.
  intros Hne. unfold checkRateLimit.
  destruct (10 <=? length (recentActions now (default [] (rl !! userId))))%nat; cbn [snd]; [done|].
  by rewrite lookup_insert_ne.
Qed.

Lemma users_update_lookup uid f us k v :
  us !! k = Some v ->
  users_update uid f us !! k = Some (if String.eqb (id v) uid then f v else v).
Proof.
  intros Hk. unfold users_update.
  change (List.map ?g us) with (g <$> us). by rewrite list_lookup_fmap, Hk.
Qed.

(** X9.  A complete-action request, whatever its outcome, leaves alone
    every token record but the one under the action id it names, every
    rate-limit record but the caller's, and every user record but the
    caller's; the number of users stays the same. *)
Theorem completeAction_frame now userId body st :
  let r := completeAction now userId body st in
  (forall a, a <> actionId body -> actionTokens (state r) !! a = actionTokens st !! a)
  /\ (forall v, v <> userId -> rateLimits (state r) !! v = rateLimits st !! v)
  /\ (forall k v, users st !! k = Some v -> id v <> userId -> users (state r) !! k = Some v)
  /\ length (users (state r)) = length (users st).
Proof.
  intros r. subst r. outcome now userId body st; try subst us; repeat split; try done;
    try (by intros; apply checkRateLimit_other);
    try (by intros; rewrite lookup_insert_ne).
  - intros k v Hk Hne. rewrite (users_update_lookup _ _ _ _ _ Hk).
    by destruct (String.eqb_spec (id v) userId).
  - unfold users_update. apply length_map.
Qed.

Lemma completeAction_frame_witness :
  "a2" <> actionId Demo.aliceBody
  /\ actionTokens (state Demo.aliceDone) !! "a2" = actionTokens Demo.st1 !! "a2".
Proof.
  split; [discriminate|].
  apply (completeAction_frame 6000 "user-1" Demo.aliceBody Demo.st1). discriminate.
Defined.

(** X10.  Which requests use up a rate-limit slot: a request that is
    rejected for its token or by the rate limit itself leaves the rate-limit
    store as it is; a request that passed the rate check records the time of
    the request for the caller, also when it is then rejected for a
    suspicious completion time. *)
Theorem rate_slot_consumption now userId body st :
  let r := completeAction now userId body st in
  let recorded := default [] (rateLimits st !! userId) in
  match response r with
  | R400_SuspiciousCompletionTime | R200_ScoreUpdated _ _ _ | R500_TypeError =>
      rateLimits (state r) !! userId = Some (recentActions now recorded ++ [now])
  | _ => rateLimits (state r) = rateLimits st
  end.
Proof.
  intros r recorded. subst r.
  assert ((checkRateLimit now userId (rateLimits st)).1 = true ->
          (checkRateLimit now userId (rateLimits st)).2 !! userId
          = Some (recentActions now recorded ++ [now])) as Hslot.
  { unfold checkRateLimit. cbv zeta. subst recorded.
    destruct (10 <=? length (recentActions now (default [] (rateLimits st !! userId))))%nat;
      cbn [fst snd]; [done | intros _; apply lookup_insert_eq]. }
  outcome now userId body st; try done; apply Hslot; try exact Hrate'; by destruct Hok as (_ & ? & _).
Qed.

(** X11.  The handler reads nothing of the signed action token but the
    user id: two requests of the same caller that name the same action id
    and completion time, each with some signed token that verifies for the
    caller, have the same result.  The action id inside the signed payload
    is never compared with the one in the body. *)
Theorem signed_payload_not_compared now userId body body' st decoded decoded' :
  verifyToken now (actionToken body) = Some decoded -> Jwt.userId decoded = userId ->
  verifyToken now (actionToken body') = Some decoded' -> Jwt.userId decoded' = userId ->
  actionId body' = actionId body -> completionTime body' = completionTime body ->
  completeAction now userId body' st = completeAction now userId body st.
Proof.
  intros Hv Hu Hv' Hu' Hid Hct. unfold completeAction.
  rewrite Hv, Hv', Hu, Hu', Hid, Hct. done.
Qed.

Lemma signed_payload_not_compared_witness :
  completeAction 6000 "user-1"
    {| actionToken := Demo.aliceLogin; actionId := "a1"; completionTime := Some 5000 |}
    Demo.st1
  = completeAction 6000 "user-1" Demo.aliceBody Demo.st1.
Proof.
  eapply (signed_payload_not_compared 6000 "user-1" Demo.aliceBody
            {| actionToken := Demo.aliceLogin; actionId := "a1"; completionTime := Some 5000 |}
            Demo.st1); reflexivity.
Defined.

(** X12.  The handler reads nothing of the stored token record but its
    [used] flag: replacing the record under the named action id by one with
    the same flag (another owner, another signed token, another creation
    time) changes neither the response nor the users, the rate limits or
    what is sent. *)
Theorem stored_owner_not_compared now userId body st s s' :
  actionTokens st !! actionId body = Some s -> used s' = used s ->
  let r := completeAction now userId body st in
  let r' := completeAction now userId body (withRecord (actionId body) s' st) in
  response r' = response r /\ users (state r') = users (state r)
  /\ rateLimits (state r') = rateLimits (state r) /\ emitted r' = emitted r.
Proof.
  intros Hs Hused r r'. subst r r'. unfold completeAction, withRecord.
  cbn [users actionTokens rateLimits]. rewrite lookup_insert_eq, Hs, Hused.
  destruct (verifyToken now (actionToken body)) as [decoded|]; [|done].
  destruct (negb (String.eqb (Jwt.userId decoded) userId)); [done|].
  destruct (used s); [done|].
  destruct (checkRateLimit now userId (rateLimits st)) as [[] rl]; cbn [negb]; [|done].
  destruct (suspicious (effectiveCompletionTime (completionTime body))); [done|].
  cbn [users actionTokens rateLimits].
  by destruct (users_get userId (users st)).
Qed.

Lemma stored_owner_not_compared_witness :
  response (completeAction 6000 "user-1" Demo.aliceBody
              (withRecord "a1"
                 {| token := Jwt.Garbage "x"; tokenUserId := "user-2"; used := false;
                    createdAt := 0 |} Demo.st1))
  = response Demo.aliceDone.
Proof.
  eapply (stored_owner_not_compared 6000 "user-1" Demo.aliceBody Demo.st1); reflexivity.
Defined.

(** ** Reading the score back *)





(** ** Tokens and successes *)

Lemma available_insert_other a b s st us rl :
  b <> a ->
  available a {| users := us; actionTokens := <[b := s]> (actionTokens st); rateLimits := rl |}
  = available a st.
Proof. intros Hne. unfold available. cbn [actionTokens]. by rewrite lookup_insert_ne. Qed.

Lemma available_insert_used a s st us rl :
  available a {| users := us; actionTokens := <[a := markUsed s]> (actionTokens st);
                 rateLimits := rl |} = 0%nat.
Proof. unfold available. cbn [actionTokens]. by rewrite lookup_insert_eq. Qed.

Lemma step_tokens a e st :
  ((if isScoreUpdated (response (step e st)) && namesId a e then 1 else 0)
   + available a (state (step e st))
   <= (if mints a e then 1 else 0) + available a st)%nat.
Proof.
  destruct e as [now u ty newId nonce|now u body]; cbn [step namesId mints].
  - unfold requestAction. cbn [response state fst snd isScoreUpdated andb].
    destruct (String.eqb_spec newId a) as [->|Hne].
    + unfold available at 1. cbn [actionTokens]. rewrite lookup_insert_eq. cbn. lia.
    + rewrite available_insert_other by done. lia.
  - outcome now u body st; cbn [isScoreUpdated andb]; try lia.
    + unfold available. cbn [actionTokens]. lia.
    + destruct (String.eqb_spec (actionId body) a) as [<-|Hne].
      * rewrite available_insert_used. lia.
      * rewrite available_insert_other by done. lia.
    + destruct (String.eqb_spec (actionId body) a) as [<-|Hne].
      * rewrite available_insert_used.
        destruct Hok as ((? & s & _ & _ & Hs' & Hunused) & _).
        unfold available. rewrite Hs'. rewrite Hunused. lia.
      * rewrite available_insert_other by done. lia.
Qed.

(** X15.  In every history, the successful completions that name an
    action id, plus one if an unused token is left under that id at the end,
    are at most the tokens issued under that id in the history, plus one if
    an unused token was stored under it at the start: a score update always
    uses up an issued token. *)
Theorem completions_bounded_by_tokens a evs st :
  (completionsOf a evs st + available a (run evs st) <= mintsOf a evs + available a st)%nat.
Proof.
  revert st. induction evs as [|e evs IH]; intros st; [cbn; lia|].
  cbn [completionsOf run]. unfold mintsOf in *. cbn [List.filter].
  pose proof (step_tokens a e st). pose proof (IH (state (step e st))).
  destruct (mints a e); cbn [length]; lia.
Qed.

(** ** The rank after an update *)

Lemma users_get_lookup uid us caller :
  users_get uid us = Some caller -> id caller = uid /\ exists k, us !! k = Some caller.
Proof.
  unfold users_get. intros Hget. apply List.find_some in Hget as [Hin Hid].
  split; [by apply String.eqb_eq|].
  apply list_elem_of_In, list_elem_of_lookup in Hin. exact Hin.
Qed.

Lemma rankOf_index now us k u :
  NoDup (map id us) -> (length us <= 100)%nat -> us !! k = Some u ->
  rankOf now (id u) us = 1 + Z.of_nat (ahead us k (score u)).
Proof.
  intros Hnd Hlen Hk. rewrite rankOf_unfold.
  pose proof (js_sort_lookup us k u Hk) as Hpos.
  rewrite (findIndex_unique _ 100 (ahead us k (score u)) u);
    [| by rewrite (js_sort_perm byScoreDesc us) | exact Hpos].
  apply lookup_lt_Some in Hpos.
  rewrite (Permutation_length (js_sort_perm byScoreDesc us)) in Hpos.
  destruct (Nat.ltb_spec (ahead us k (score u)) 100); lia.
Qed.

Lemma count_le {A} (p q c : A -> bool) l :
  Forall (fun v => (Nat.b2n (p v) + Nat.b2n (q v) <= Nat.b2n (c v))%nat) l ->
  (length (List.filter p l) + length (List.filter q l) <= length (List.filter c l))%nat.
Proof.
  induction 1 as [|v l Hv _ IH]; [done|]. cbn [List.filter].
  destruct (p v), (q v), (c v); cbn [length Nat.b2n] in *; lia.
Qed.

Lemma ahead_after_update us k caller :
  NoDup (map id us) -> us !! k = Some caller ->
  (ahead (users_update (id caller) addScore us) k (score caller + 100)
   <= ahead us k (score caller))%nat.
Proof.
  intros Hnd Hk. unfold ahead, users_update.
  set (g := fun u => if String.eqb (id u) (id caller) then addScore u else u).
  change (take k (List.map g us)) with (take k (g <$> us)). rewrite <- fmap_take.
  change (g <$> take k us) with (List.map g (take k us)).
  rewrite !List.filter_map_swap, !length_map.
  rewrite <- (take_drop k us) at 1 3. rewrite !List.filter_app, !length_app.
  assert (forall v, v ∈ us -> id v = id caller -> v = caller) as Hsame.
  { intros v Hv Hid. apply list_elem_of_lookup in Hv as [j Hj].
    pose proof (lookup_id_inj us j k v caller Hnd Hj Hk Hid) as ->. congruence. }
  assert (forall v, v ∈ take k us -> id v <> id caller) as Hbefore.
  { intros v Hv Hid. apply elem_of_take in Hv as (j & Hj & Hlt).
    pose proof (lookup_id_inj us j k v caller Hnd Hj Hk Hid). lia. }
  pose proof (count_le (fun v => scoreAbove (score caller + 100) (g v))
                (fun v => hasScore (score caller + 100) (g v))
                (scoreAbove (score caller)) (take k us)) as Htake.
  pose proof (count_le (fun v => scoreAbove (score caller + 100) (g v))
                (fun _ => false) (scoreAbove (score caller)) (drop k us)) as Hdrop.
  assert (length (List.filter (fun _ : User => false) (drop k us)) = 0%nat) as Hnone.
  { generalize (drop k us). intros l. by induction l. }
  enough (Hgoal : Forall (fun v => (Nat.b2n (scoreAbove (score caller + 100) (g v))
                           + Nat.b2n (hasScore (score caller + 100) (g v))
                           <= Nat.b2n (scoreAbove (score caller) v))%nat) (take k us)
          /\ Forall (fun v => (Nat.b2n (scoreAbove (score caller + 100) (g v)) + Nat.b2n false
                               <= Nat.b2n (scoreAbove (score caller) v))%nat) (drop k us)).
  { destruct Hgoal as [H1 H2]. specialize (Htake H1). specialize (Hdrop H2).
    unfold compose. lia. }
  split; apply Forall_forall; intros v Hv.
  - assert (g v = v) as ->.
    { unfold g. destruct (String.eqb_spec (id v) (id caller)); [|done].
      by destruct (Hbefore v Hv). }
    unfold scoreAbove, hasScore.
    destruct (Z.ltb_spec (score caller + 100) (score v)), (Z.eqb_spec (score v) (score caller + 100)),
      (Z.ltb_spec (score caller) (score v)); cbn; lia.
  - unfold g. destruct (String.eqb_spec (id v) (id caller)) as [Hid|Hne].
    + rewrite (Hsame v); [| by eapply subseteq_drop | done].
      unfold scoreAbove, addScore, scoreIncrement. cbn [score].
      destruct (Z.ltb_spec (score caller + 100) (score caller + 100)); [lia|]. cbn. lia.
    + unfold scoreAbove.
      destruct (Z.ltb_spec (score caller + 100) (score v)), (Z.ltb_spec (score caller) (score v));
        cbn; lia.
Qed.

(** X13.  With distinct user ids and at most 100 users, the rank returned
    by a successful completion is the caller's rank in the new store, is at
    least 1, and is never worse than the caller's rank before the update. *)
Theorem rank_never_worsens now userId body st incr newScore newRank st' em :
  NoDup (map id (users st)) -> (length (users st) <= 100)%nat ->
  completeAction now userId body st = (R200_ScoreUpdated incr newScore newRank, st', em) ->
  newRank = rankOf now userId (users st')
  /\ 1 <= newRank <= rankOf now userId (users st).
Proof.
  intros Hnd Hlen Hdone. revert Hdone. outcome now userId body st; try done.
  subst us. intros [= <- <- <- <- <-]. cbn [users]. split; [done|].
  apply users_get_lookup in Hg as [<- [k Hk]].
  rewrite (rankOf_index now (users st) k user Hnd Hlen Hk).
  rewrite (rankOf_index now _ k (addScore user)).
  - pose proof (ahead_after_update (users st) k user Hnd Hk) as Hle.
    change (score (addScore user)) with (score user + 100). lia.
  - by rewrite users_update_ids.
  - unfold users_update. by rewrite length_map.
  - rewrite (users_update_lookup _ _ _ _ _ Hk). by rewrite String.eqb_refl.
Qed.

Lemma rank_never_worsens_witness :
  (length (users Demo.st1) <= 100)%nat
  /\ 1 <= 2 <= rankOf 6000 "user-1" (users Demo.st1).
Proof.
  split; [cbn; lia|].
  eapply (rank_never_worsens 6000 "user-1" Demo.aliceBody Demo.st1 _ _ _ _ _ demoUsers_NoDup);
    [cbn; lia | reflexivity].
Defined.

(** ** Reachable states *)

Lemma step_grew e st : Forall2 grewFrom (users st) (users (state (step e st))).
Proof.
  destruct e as [now u ty newId nonce|now u body]; cbn [step].
  - apply grewFrom_refl.
  - outcome now u body st; try apply grewFrom_refl. apply users_update_grew.
Qed.

Lemma run_grew evs st : Forall2 grewFrom (users st) (users (run evs st)).
Proof.
  revert st. induction evs as [|e evs IH]; intros st; [apply grewFrom_refl|].
  cbn [run]. eapply grewFrom_trans; [apply step_grew | apply IH].
Qed.

Lemma grewFrom_fields us vs :
  Forall2 grewFrom us vs ->
  map id vs = map id us /\ map username vs = map username us
  /\ map password vs = map password us /\ Forall2 (fun u v => score u <= score v) us vs.
Proof.
  induction 1 as [|u v us vs (Hi & Hn & Hp & Hs) _ (IHi & IHn & IHp & IHs)]; [done|].
  cbn [map]. rewrite Hi, Hn, Hp, IHi, IHn, IHp. repeat split. by constructor.
Qed.

(** X16.  Every state the server can reach from its start, whatever the
    random initial scores and whatever the history: the users are [user-1]
    to [user-10] with the ten demo names and the demo password, the ids are
    distinct, there are at most 100 users, no user has more than ten recorded
    rate-limit timestamps, and no score is below its initial value. *)
Theorem reachable_invariants rnd evs :
  let st := run evs (initialState rnd) in
  map id (users st)
  = ["user-1"; "user-2"; "user-3"; "user-4"; "user-5";
     "user-6"; "user-7"; "user-8"; "user-9"; "user-10"]
  /\ map username (users st) = demoNames
  /\ Forall (fun u => password u = "demo123") (users st)
  /\ NoDup (map id (users st))
  /\ (length (users st) <= 100)%nat
  /\ rateBounded (rateLimits st)
  /\ Forall2 (fun u v => score u <= score v) (initialUsers rnd) (users st).
Proof.
  intros st. subst st.
  destruct (grewFrom_fields _ _ (run_grew evs (initialState rnd))) as (Hi & Hn & Hp & Hs).
  cbn [initialState users] in *.
  assert (map id (initialUsers rnd)
          = ["user-1"; "user-2"; "user-3"; "user-4"; "user-5";
             "user-6"; "user-7"; "user-8"; "user-9"; "user-10"]) as Hids by reflexivity.
  rewrite Hids in Hi. rewrite Hi. split; [done|]. split; [by rewrite Hn|].
  split.
  { apply Forall_forall. intros u Hu.
    assert (password u ∈ map password (users (run evs (initialState rnd)))) as Hin
      by (apply list_elem_of_fmap; eauto).
    rewrite Hp in Hin. cbn in Hin.
    repeat (apply elem_of_cons in Hin as [Hin|Hin]; [exact Hin|]).
    by apply elem_of_nil in Hin. }
  split; [apply (bool_decide_unpack _); by vm_compute|].
  split.
  { rewrite <- (length_map id), Hi. cbn. lia. }
  split; [|done].
  apply run_rateBounded. intros u l. cbn [initialState rateLimits]. by rewrite lookup_empty.
Qed.

(** ** From login to the score *)




(** ** Ranks as an order *)

Lemma sorted_position_order us i j u v :
  js_sort byScoreDesc us !! i = Some u -> js_sort byScoreDesc us !! j = Some v ->
  score v < score u -> (i < j)%nat.
Proof.
  intros Hi Hj Hlt. destruct (Nat.lt_trichotomy i j) as [?|[->|Hgt]]; [done| |].
  - rewrite Hi in Hj. injection Hj as ->. lia.
  - pose proof (StronglySorted_lookup_lt scoreGe _ j i v u (js_sort_sorted us) Hj Hi Hgt) as H.
    unfold scoreGe in H. lia.
Qed.

(** X18.  With distinct user ids and at most 100 users, the ranks order
    the users: every user's rank lies between 1 and the number of users, two
    different users never have the same rank, and a user with a strictly
    greater score has a strictly smaller rank. *)
Theorem ranks_order_users now us k j u v :
  NoDup (map id us) -> (length us <= 100)%nat ->
  us !! k = Some u -> us !! j = Some v ->
  1 <= rankOf now (id u) us <= Z.of_nat (length us)
  /\ (k <> j -> rankOf now (id u) us <> rankOf now (id v) us)
  /\ (score v < score u -> rankOf now (id u) us < rankOf now (id v) us).
Proof.
  intros Hnd Hlen Hk Hj.
  rewrite (rankOf_index now us k u Hnd Hlen Hk), (rankOf_index now us j v Hnd Hlen Hj).
  pose proof (js_sort_lookup us k u Hk) as Hu. pose proof (js_sort_lookup us j v Hj) as Hv.
  pose proof (lookup_lt_Some _ _ _ Hu) as Hbound.
  rewrite (Permutation_length (js_sort_perm byScoreDesc us)) in Hbound.
  split; [lia|]. split.
  - intros Hne Heq. assert (ahead us k (score u) = ahead us j (score v)) as Hpos by lia.
    rewrite Hpos in Hu. rewrite Hu in Hv. injection Hv as ->.
    apply Hne. by apply (lookup_id_inj us k j v v Hnd).
  - intros Hlt. pose proof (sorted_position_order us _ _ u v Hu Hv Hlt). lia.
Qed.

Lemma ranks_order_users_witness :
  (length Demo.demoUsers <= 100)%nat
  /\ rankOf 0 "user-3" Demo.demoUsers < rankOf 0 "user-1" Demo.demoUsers
  /\ rankOf 0 "user-1" Demo.demoUsers <> rankOf 0 "user-2" Demo.demoUsers.
Proof.
  assert (length Demo.demoUsers <= 100)%nat as Hlen by (cbn; lia).
  split; [exact Hlen|]. split.
  - apply (ranks_order_users 0 Demo.demoUsers 2 0 (Demo.mkUser "user-3" "Charlie" 300)
             (Demo.mkUser "user-1" "Alice" 100) demoUsers_NoDup Hlen eq_refl eq_refl).
    reflexivity.
  - apply (ranks_order_users 0 Demo.demoUsers 0 1 (Demo.mkUser "user-1" "Alice" 100)
             (Demo.mkUser "user-2" "Bob" 100) demoUsers_NoDup Hlen eq_refl eq_refl).
    discriminate.
Defined.
